(** * VectorSorting: bids, three sorts, two searches, loader and benchmark export

    A shallow embedding of [VectorSorting.cpp] (the enhanced version; the
    original version has the same [Bid], [loadBids], [partition], [quickSort],
    [selectionSort] and [strToDouble]).

    Conventions of the embedding.
    - [vector<Bid>] is a [list Bid]; an element access outside the vector
      (undefined for [operator[]], [std::out_of_range] for [at]) is the
      outcome [Fault].
    - C++ [int] indices are [Z], [unsigned int] indices are [nat].  Every index
      the functions compute lies between [-1] and [bids.size()], so on a
      vector of at most [INT_MAX] elements no operation leaves the range of
      [int]; integer division is [Z.quot], as in C++.
    - [std::string] is [string]; [<], [<=], [>], [==] and [compare] on it are
      the lexicographic comparison of the characters as unsigned bytes,
      which is [String.compare].
    - A loop is a [Fixpoint] on a budget of iterations.  Loops whose number of
      iterations is bounded by the vector get their budget from the vector;
      the recursive sorts take the budget (the depth of recursion) as their
      argument [fuel], and [OutOfFuel] is the outcome of a call that is
      still running when the budget is used up. *)

From Stdlib Require Import ZArith QArith Qpower Qreduction Ascii String Sorted OrderedTypeEx.
From stdpp Require Import base tactics option list strings gmap sorting pretty.

Open Scope Z_scope.

(** ** Outcomes of a call *)

Inductive outcome (A : Type) : Type :=
  | Ret (a : A)
  | Fault
  | OutOfFuel.
Arguments Ret {A} a.
Arguments Fault {A}.
Arguments OutOfFuel {A}.

Definition obind {A B} (f : A → outcome B) (m : outcome A) : outcome B :=
  match m with
  | Ret a => f a
  | Fault => Fault
  | OutOfFuel => OutOfFuel
  end.

#[global] Instance outcome_ret : MRet outcome := @Ret.
#[global] Instance outcome_bind : MBind outcome := @obind.

(** ** The record *)

(** The value of a C++ [double] as far as the program's text decides it:
    [Finite q] stands for the binary64 number nearest to the rational [q],
    or the infinity of its sign when [q] is out of range (rounding keeps the
    sign and keeps zero); the other two are the IEEE infinities and
    not-a-number. *)
Inductive double : Type :=
  | Finite (q : Q)
  | Infinity (negative : bool)
  | NaN.

Record Bid : Type := mkBid {
  bidId : string;
  title : string;
  fund : string;
  amount : double
}.

(** [Bid()] : three empty strings and [amount = 0.0]. *)
Definition Bid_default : Bid := mkBid "" "" "" (Finite 0).

(** ** Comparison of titles *)

Definition title_le (a b : Bid) : Prop := (title a <=? title b)%string = true.
Definition title_lt (a b : Bid) : Prop := (title a <? title b)%string = true.

(** ** Vector access *)

Section vector.
Context {A : Type}.

(** [v.at(i)] with an unsigned index. *)
Definition vec_at (v : list A) (i : nat) : outcome A :=
  match v !! i with
  | Some x => Ret x
  | None => Fault
  end.

(** [v[i]] read with an [int] index. *)
Definition vec_get (v : list A) (i : Z) : outcome A :=
  if decide (0 ≤ i) then vec_at v (Z.to_nat i) else Fault.

(** [v[i] = x] with an [int] index. *)
Definition vec_set (v : list A) (i : Z) (x : A) : outcome (list A) :=
  if decide (0 ≤ i < Z.of_nat (length v)) then Ret (<[Z.to_nat i := x]> v)
  else Fault.

(** [swap(v.at(i), v.at(j))]. *)
Definition swap_at (v : list A) (i j : nat) : outcome (list A) :=
  x ← vec_at v i;
  y ← vec_at v j;
  Ret (<[j := x]> (<[i := y]> v)).

(** [swap(v[i], v[j])] with [int] indices. *)
Definition vec_swap (v : list A) (i j : Z) : outcome (list A) :=
  x ← vec_get v i;
  y ← vec_get v j;
  v' ← vec_set v i y;
  vec_set v' j x.
End vector.

(** ** selectionSort *)

(** The inner [for (unsigned j = i + 1; j < bids.size(); ++j)]: [n] is the
    number of iterations left, [bids.size() - j]. *)
Fixpoint lowest_from (n : nat) (bids : list Bid) (j lowest : nat) : outcome nat :=
  match n with
  | O => Ret lowest
  | S n' =>
      bj ← vec_at bids j;
      bl ← vec_at bids lowest;
      lowest_from n' bids (S j)
        (if (title bj ?= title bl)%string is Lt then j else lowest)
  end.

(** The outer [for (unsigned i = 0; i < bids.size(); ++i)]: [n] is
    [bids.size() - i]. *)
Fixpoint selectionSort_from (n : nat) (bids : list Bid) (i : nat) : outcome (list Bid) :=
  match n with
  | O => Ret bids
  | S n' =>
      lowestAlphaTitle ← lowest_from (length bids - S i) bids (S i) i;
      bids' ← (if decide (lowestAlphaTitle ≠ i)
               then swap_at bids i lowestAlphaTitle
               else Ret bids);
      selectionSort_from n' bids' (S i)
  end.

Definition selectionSort (bids : list Bid) : outcome (list Bid) :=
  selectionSort_from (length bids) bids 0.


(** ** partition and quickSort *)

(** [while (bids[left].title < pivotBid.title) left++;] *)
Fixpoint scan_left (n : nat) (bids : list Bid) (pivot : string) (left : Z) : outcome Z :=
  b ← vec_get bids left;
  if (title b <? pivot)%string then
    match n with
    | O => OutOfFuel
    | S n' => scan_left n' bids pivot (left + 1)
    end
  else Ret left.

(** [while (bids[right].title > pivotBid.title) right--;] *)
Fixpoint scan_right (n : nat) (bids : list Bid) (pivot : string) (right : Z) : outcome Z :=
  b ← vec_get bids right;
  if (pivot <? title b)%string then
    match n with
    | O => OutOfFuel
    | S n' => scan_right n' bids pivot (right - 1)
    end
  else Ret right.

(** [while (left <= right) { ... }] of [partition]; the result is the final
    [right] and the vector. *)
Fixpoint partition_loop (n : nat) (bids : list Bid) (pivot : string)
    (left right : Z) : outcome (Z * list Bid) :=
  if decide (left ≤ right) then
    match n with
    | O => OutOfFuel
    | S n' =>
        left1 ← scan_left (length bids) bids pivot left;
        right1 ← scan_right (length bids) bids pivot right;
        if decide (left1 ≤ right1) then
          bids' ← vec_swap bids left1 right1;
          partition_loop n' bids' pivot (left1 + 1) (right1 - 1)
        else partition_loop n' bids pivot left1 right1
    end
  else Ret (right, bids).

Definition partition (bids : list Bid) (start end_ : Z) : outcome (Z * list Bid) :=
  pivotBid ← vec_get bids ((start + end_) `quot` 2);
  partition_loop (S (length bids)) bids (title pivotBid) start end_.

Fixpoint quickSort (fuel : nat) (bids : list Bid) (begin end_ : Z) : outcome (list Bid) :=
  if decide (begin >= end_) then Ret bids
  else
    match fuel with
    | O => OutOfFuel
    | S fuel' =>
        '(mid, bids1) ← partition bids begin end_;
        bids2 ← quickSort fuel' bids1 begin mid;
        quickSort fuel' bids2 (mid + 1) end_
    end.

(** ** merge and mergeSort *)

(** [vector<Bid> a(size)]: [size] default-constructed bids; a negative [int]
    converts to a size no vector can have ([std::length_error]). *)
Definition vec_new (size : Z) : outcome (list Bid) :=
  if decide (0 ≤ size) then Ret (replicate (Z.to_nat size) Bid_default) else Fault.

(** [for (int i = 0; i < size; i++) arr[i] = bids[from + i];] with [n]
    iterations left. *)
Fixpoint copy_loop (n : nat) (bids : list Bid) (from : Z) (arr : list Bid) (i : Z)
    : outcome (list Bid) :=
  match n with
  | O => Ret arr
  | S n' =>
      b ← vec_get bids (from + i);
      arr' ← vec_set arr i b;
      copy_loop n' bids from arr' (i + 1)
  end.

(** [while (i < leftSize && j < rightSize) { ... }] *)
Fixpoint merge_both (n : nat) (leftArray rightArray : list Bid) (leftSize rightSize : Z)
    (bids : list Bid) (i j k : Z) : outcome (Z * Z * Z * list Bid) :=
  if decide (i < leftSize ∧ j < rightSize) then
    match n with
    | O => OutOfFuel
    | S n' =>
        l ← vec_get leftArray i;
        r ← vec_get rightArray j;
        if (title l <=? title r)%string then
          bids' ← vec_set bids k l;
          merge_both n' leftArray rightArray leftSize rightSize bids' (i + 1) j (k + 1)
        else
          bids' ← vec_set bids k r;
          merge_both n' leftArray rightArray leftSize rightSize bids' i (j + 1) (k + 1)
    end
  else Ret (i, j, k, bids).

(** [while (i < size) { bids[k] = arr[i]; i++; k++; }] *)
Fixpoint merge_rest (n : nat) (arr : list Bid) (size : Z) (bids : list Bid) (i k : Z)
    : outcome (Z * list Bid) :=
  if decide (i < size) then
    match n with
    | O => OutOfFuel
    | S n' =>
        x ← vec_get arr i;
        bids' ← vec_set bids k x;
        merge_rest n' arr size bids' (i + 1) (k + 1)
    end
  else Ret (k, bids).

Definition merge (bids : list Bid) (left mid right : Z) : outcome (list Bid) :=
  let leftSize := mid - left + 1 in
  let rightSize := right - mid in
  leftArray0 ← vec_new leftSize;
  rightArray0 ← vec_new rightSize;
  leftArray ← copy_loop (Z.to_nat leftSize) bids left leftArray0 0;
  rightArray ← copy_loop (Z.to_nat rightSize) bids (mid + 1) rightArray0 0;
  '(i, j, k, bids1) ← merge_both (Z.to_nat (leftSize + rightSize))
                        leftArray rightArray leftSize rightSize bids 0 0 left;
  '(k, bids2) ← merge_rest (Z.to_nat leftSize) leftArray leftSize bids1 i k;
  '(_, bids3) ← merge_rest (Z.to_nat rightSize) rightArray rightSize bids2 j k;
  Ret bids3.

Fixpoint mergeSort (fuel : nat) (bids : list Bid) (left right : Z) : outcome (list Bid) :=
  if decide (left < right) then
    match fuel with
    | O => OutOfFuel
    | S fuel' =>
        let mid := left + (right - left) `quot` 2 in
        bids1 ← mergeSort fuel' bids left mid;
        bids2 ← mergeSort fuel' bids1 (mid + 1) right;
        merge bids2 left mid right
    end
  else Ret bids.

(** ** binarySearch *)

(** [while (left <= right) { ... }] of [binarySearch], [n] iterations left. *)
Fixpoint binarySearch_loop (n : nat) (bids : list Bid) (t : string) (left right : Z)
    : outcome Z :=
  if decide (left ≤ right) then
    match n with
    | O => OutOfFuel
    | S n' =>
        let mid := left + (right - left) `quot` 2 in
        b ← vec_get bids mid;
        if (title b =? t)%string then Ret mid
        else if (title b <? t)%string then binarySearch_loop n' bids t (mid + 1) right
        else binarySearch_loop n' bids t left (mid - 1)
    end
  else Ret (-1).

Definition binarySearch (bids : list Bid) (t : string) : outcome Z :=
  binarySearch_loop (length bids) bids t 0 (Z.of_nat (length bids) - 1).

(** The calls of [main]: the whole vector, [0] to [bids.size() - 1]. *)
Definition last_index (bids : list Bid) : Z := Z.of_nat (length bids) - 1.

(** ** strToDouble *)

(** [atof] is the C library's; the program runs in the "C" locale.  The
    definitions below follow the description of [strtod] in the C standard:
    white space, an optional sign, then a decimal number with an optional
    exponent, a hexadecimal number with an optional binary exponent, INF or
    NAN in any case; otherwise no conversion, and the value is zero. *)

Definition is_space (c : ascii) : bool :=
  let n := N_of_ascii c in ((n =? 32) || ((9 <=? n) && (n <=? 13)))%N.

Definition digit_val (c : ascii) : option Z :=
  let n := Z.of_N (N_of_ascii c) in
  if (48 <=? n) && (n <=? 57) then Some (n - 48) else None.

Definition hex_val (c : ascii) : option Z :=
  let n := Z.of_N (N_of_ascii c) in
  if (48 <=? n) && (n <=? 57) then Some (n - 48)
  else if (97 <=? n) && (n <=? 102) then Some (n - 87)
  else if (65 <=? n) && (n <=? 70) then Some (n - 55)
  else None.

Definition to_lower (c : ascii) : ascii :=
  let n := N_of_ascii c in
  if ((65 <=? n) && (n <=? 90))%N then ascii_of_N (n + 32) else c.

Fixpoint skip_spaces (s : string) : string :=
  match s with
  | String c s' => if is_space c then skip_spaces s' else s
  | EmptyString => s
  end.

Definition read_sign (s : string) : bool * string :=
  match s with
  | String c s' =>
      if Ascii.eqb c "-" then (true, s')
      else if Ascii.eqb c "+" then (false, s')
      else (false, s)
  | EmptyString => (false, s)
  end.

(** [prefix_ci p s]: [s] starts with the lower-case word [p], in any case. *)
Fixpoint prefix_ci (p s : string) : bool :=
  match p, s with
  | EmptyString, _ => true
  | String a p', String c s' => Ascii.eqb a (to_lower c) && prefix_ci p' s'
  | String _ _, EmptyString => false
  end.

(** The longest run of digits at the head of [s]: its value in [base] on top
    of [acc], the number of digits read on top of [n], and what follows. *)
Fixpoint read_digits (val : ascii → option Z) (base : Z) (s : string) (acc : Z) (n : nat)
    : Z * nat * string :=
  match s with
  | String c s' =>
      match val c with
      | Some d => read_digits val base s' (acc * base + d) (S n)
      | None => (acc, n, s)
      end
  | EmptyString => (acc, n, s)
  end.

(** A nonempty digit sequence that may contain one radix character: the digits
    as an integer, the number of digits after the point, and what follows. *)
Definition read_mantissa (val : ascii → option Z) (base : Z) (s : string)
    : option (Z * nat * string) :=
  let '(m1, n1, r1) := read_digits val base s 0 0%nat in
  match r1 with
  | String c r2 =>
      if Ascii.eqb c "." then
        let '(m2, n2, r3) := read_digits val base r2 m1 0%nat in
        if (n1 + n2 =? 0)%nat then None else Some (m2, n2, r3)
      else if (n1 =? 0)%nat then None else Some (m1, 0%nat, r1)
  | EmptyString => if (n1 =? 0)%nat then None else Some (m1, 0%nat, r1)
  end.

(** An exponent part: the marker ([e] or [p], in either case), an optional
    sign and at least one decimal digit; its value, or [0] when there is none. *)
Definition read_exponent (marker : ascii) (s : string) : Z :=
  match s with
  | String c r =>
      if Ascii.eqb marker (to_lower c) then
        let '(neg, r') := read_sign r in
        let '(e, n, _) := read_digits digit_val 10 r' 0 0%nat in
        if (n =? 0)%nat then 0 else if neg then - e else e
      else 0
  | EmptyString => 0
  end.

Definition decimal_form (s : string) : option Q :=
  '(m, d, r) ← read_mantissa digit_val 10 s;
  Some (inject_Z m * Qpower (10 # 1) (read_exponent "e" r - Z.of_nat d))%Q.

Definition hexadecimal_form (s : string) : option Q :=
  match s with
  | String z (String x s') =>
      if Ascii.eqb z "0" && Ascii.eqb "x" (to_lower x) then
        '(m, d, r) ← read_mantissa hex_val 16 s';
        Some (inject_Z m * Qpower (2 # 1) (read_exponent "p" r - 4 * Z.of_nat d))%Q
      else None
  | _ => None
  end.

Definition atof (s : string) : double :=
  let '(neg, s') := read_sign (skip_spaces s) in
  let signed (q : Q) := Finite (Qred (if neg then - q else q)) in
  if prefix_ci "inf" s' then Infinity neg
  else if prefix_ci "nan" s' then NaN
  else
    match hexadecimal_form s' with
    | Some q => signed q
    | None =>
        match decimal_form s' with
        | Some q => signed q
        | None => Finite 0
        end
    end.

(** [remove(str.begin(), str.end(), ch)] followed by [erase]: every
    occurrence of [ch] goes. *)
Fixpoint remove_char (ch : ascii) (str : string) : string :=
  match str with
  | String c str' =>
      if Ascii.eqb c ch then remove_char ch str' else String c (remove_char ch str')
  | EmptyString => EmptyString
  end.

(** [str.c_str()] as a C string: the characters before the first NUL. *)
Fixpoint c_str (str : string) : string :=
  match str with
  | String c str' => if Ascii.eqb c zero then EmptyString else String c (c_str str')
  | EmptyString => EmptyString
  end.

Definition strToDouble (str : string) (ch : ascii) : double :=
  atof (c_str (remove_char ch str)).

(** ** loadBids *)

Inductive csv_result (A : Type) : Type :=
  | Val (a : A)
  | Throw (what : string).
Arguments Val {A} a.
Arguments Throw {A} what.

#[global] Instance csv_result_ret : MRet csv_result := @Val.
#[global] Instance csv_result_bind : MBind csv_result := λ A B f m,
  match m with
  | Val a => f a
  | Throw e => Throw e
  end.

(** Modelled from the spec: [csv::Parser] of CSVparser.hpp, which is not among
    the sources.  The spec makes it an external collaborator that provides
    rows of string fields; the code uses [rowCount()] and [file[i][k]] and
    catches the [csv::Error] these may throw, of which only [what()] is used. *)
Record Parser : Type := mkParser {
  rowCount : Z;
  field : Z → Z → csv_result string
}.

(** Modelled from the spec: a collaborator over rows that were read: the
    rows in order, and [csv::Error] for a row or a column that is not there. *)
Definition table (rows : list (list string)) : Parser :=
  {| rowCount := Z.of_nat (length rows);
     field i k :=
       if decide (0 ≤ i ∧ 0 ≤ k) then
         match rows !! Z.to_nat i with
         | Some row =>
             match row !! Z.to_nat k with
             | Some s => Val s
             | None => Throw "no such column"
             end
         | None => Throw "no such row"
         end
       else Throw "no such row" |}.

Inductive event : Type :=
  | Cout (line : string)
  | Cerr (line : string).

(** The body of the [for] loop of [loadBids]. *)
Definition readBid (file : Parser) (i : Z) : csv_result Bid :=
  id ← field file i 1;
  ti ← field file i 0;
  fu ← field file i 8;
  am ← field file i 4;
  Val (mkBid id ti fu (strToDouble am "$")).

(** [for (int i = 0; i < file.rowCount(); i++)] inside [try]: the vector
    when the loop is left, and the error if it was left by a throw. *)
Fixpoint loadBids_loop (n : nat) (file : Parser) (i : Z) (bids : list Bid)
    : list Bid * option string :=
  match n with
  | O => (bids, None)
  | S n' =>
      match readBid file i with
      | Val bid => loadBids_loop n' file (i + 1) (bids ++ [bid])
      | Throw e => (bids, Some e)
      end
  end.

(** [csv::Parser(csvPath)] is the argument [open]: it is constructed before
    the [try] block is entered. *)
Definition loadBids (open : string → csv_result Parser) (csvPath : string)
    : list event * csv_result (list Bid) :=
  let out := [Cout ("Loading CSV file " +:+ csvPath)] in
  match open csvPath with
  | Throw e => (out, Throw e)
  | Val file =>
      match loadBids_loop (Z.to_nat (rowCount file)) file 0 [] with
      | (bids, None) => (out, Val bids)
      | (bids, Some e) => (out ++ [Cerr e], Val bids)
      end
  end.

(** ** exportBenchmarkToCSV *)

Definition endl : string := String (ascii_of_N 10) EmptyString.

Definition csv_header : string := "Algorithm,DataSize,TimeMs".

(** The file system as the program meets it: the files that exist, with
    their contents, and for every name whether a stream on it opens for
    reading ([ifstream], on a file that exists) and for appending
    ([ofstream::open] with [ios::app], which creates the file when it does
    not exist).  A name such as the empty one, or one in a directory that
    does not exist, opens for neither. *)
Record FileSystem : Type := mkFileSystem {
  fs_content : gmap string string;
  fs_reads : string → bool;
  fs_appends : string → bool
}.

(** [fs !! name] is the content of the file of that name, when it exists. *)
#[global] Instance FileSystem_lookup : Lookup string string FileSystem :=
  λ name fs, fs_content fs !! name.

(** [∅] is a file system that has no file and opens every name but the
    empty one. *)
#[global] Instance FileSystem_empty : Empty FileSystem :=
  mkFileSystem ∅ (λ _, true) (λ name, negb (String.eqb name "")).

Section export.
(** [operator<<] on a [double], the iostream library's. *)
Variable show_double : double → string.

(** [checkFile.good()] holds when the [ifstream] opened: the file exists and
    opens for reading.  The [ofstream] is not tested after [open]: when it
    did not open, every [<<] on it does nothing, no file is made or changed,
    and the line on [cout] is written all the same. *)
Definition exportBenchmarkToCSV (fs : FileSystem) (filename algorithm : string)
    (dataSize : Z) (timeMs : double) : FileSystem * list event :=
  let fileExists := bool_decide (is_Some (fs !! filename)) && fs_reads fs filename in
  let opened := fs_appends fs filename in
  let file := default "" (fs !! filename) in
  let file := if negb fileExists then file +:+ csv_header +:+ endl else file in
  let file := file +:+ algorithm +:+ "," +:+ pretty dataSize +:+ ","
                   +:+ show_double timeMs +:+ endl in
  ((if opened
    then mkFileSystem (<[filename := file]> (fs_content fs)) (fs_reads fs) (fs_appends fs)
    else fs),
   [Cout ("Benchmark result exported to " +:+ filename)]).
End export.

(** ** The identifier map of main *)

(** [bidHashMap.clear(); for (const auto& bid : bids) bidHashMap[bid.bidId] = bid;] *)
Definition populate (bids : list Bid) : gmap string Bid :=
  foldl (λ m bid, <[bidId bid := bid]> m) ∅ bids.

(** [bidHashMap.find(searchId)], [None] for [bidHashMap.end()]. *)
Definition find (bidHashMap : gmap string Bid) (searchId : string) : option Bid :=
  bidHashMap !! searchId.

Inductive search_report : Type :=
  | PleaseLoadFirst
  | BidFound (bid : Bid)
  | BidNotFound.

(** Case 7 of the menu. *)
Definition searchById (bidHashMap : gmap string Bid) (searchId : string) : search_report :=
  if decide (bidHashMap = ∅) then PleaseLoadFirst
  else
    match find bidHashMap searchId with
    | Some bid => BidFound bid
    | None => BidNotFound
    end.

(** ** displayBid and the sorting and searching cases of main *)

(** What the session of [main] holds between two choices of the menu: the
    vector [bids], the map [bidHashMap], and the files.  A case is modelled
    from the values its extractions from [cin] deliver and from the counts
    its [steady_clock] readings give; a [Cout] event is the text the case
    writes up to an [endl], so that a prompt written without [endl] opens
    the line that the next [endl] closes. *)
Record Session : Type := mkSession {
  s_bids : list Bid;
  s_bidHashMap : gmap string Bid;
  s_files : FileSystem
}.

(** Case 1: the vector is replaced by what [loadBids] returns and the map is
    cleared and populated from it; an error that leaves [loadBids] leaves the
    case.  [ms] is [duration.count()]. *)
Definition case1 (open : string → csv_result Parser) (csvPath : string) (ms : Z)
    (s : Session) : list event * csv_result Session :=
  let '(written, loaded) := loadBids open csvPath in
  match loaded with
  | Throw e => (written, Throw e)
  | Val bids =>
      (written ++ [Cout (pretty (length bids) +:+ " bids read");
                   Cout ("time: " +:+ pretty ms +:+ " milliseconds")],
       Val (mkSession bids (populate bids) (s_files s)))
  end.

Section menu.
Variable show_double : double → string.

Definition displayBid (bid : Bid) : event :=
  Cout (bidId bid +:+ ": " +:+ title bid +:+ " | " +:+ show_double (amount bid)
          +:+ " | " +:+ fund bid).

(** Cases 3, 4 and 5 are one text, each with its sort and its name: the sort
    runs on a copy, the size and the time are written, the result is
    exported and the copy is assigned to [bids].  [ms] is
    [duration.count()]. *)
Definition sort_case (algorithm : string) (sort : list Bid → outcome (list Bid))
    (ms : Z) (s : Session) : outcome (Session * list event) :=
  sortedBids ← sort (s_bids s);
  let '(files, exported) :=
    exportBenchmarkToCSV show_double (s_files s) "benchmark_results.csv" algorithm
      (Z.of_nat (length sortedBids)) (Finite (inject_Z ms)) in
  Ret (mkSession sortedBids (s_bidHashMap s) files,
       [Cout (pretty (length sortedBids) +:+ " bids sorted");
        Cout ("time: " +:+ pretty ms +:+ " milliseconds")] ++ exported).

Definition case3 : Z → Session → outcome (Session * list event) :=
  sort_case "SelectionSort" selectionSort.

Definition case4 (fuel : nat) : Z → Session → outcome (Session * list event) :=
  sort_case "QuickSort" (λ sortedBids, quickSort fuel sortedBids 0 (last_index sortedBids)).

Definition case5 (fuel : nat) : Z → Session → outcome (Session * list event) :=
  sort_case "MergeSort" (λ sortedBids, mergeSort fuel sortedBids 0 (last_index sortedBids)).

(** Case 6: [searchTitle] is the line read, [us] is [duration.count()]. *)
Definition case6 (us : Z) (searchTitle : string) (s : Session) : outcome (list event) :=
  if decide (s_bids s = []) then Ret [Cout "Please load bids first."]
  else
    index ← binarySearch (s_bids s) searchTitle;
    shown ← (if decide (index ≠ -1) then
               bid ← vec_get (s_bids s) index;
               Ret [Cout "Enter bid title to search: Bid found:"; displayBid bid]
             else Ret [Cout "Enter bid title to search: Bid not found."]);
    Ret (shown ++ [Cout ("Search time: " +:+ pretty us +:+ " microseconds")]).

(** Case 8: each sort runs on [tempBids], a fresh copy of [bids], and its
    result is exported; [bids] is not assigned to.  [ms1], [ms2] and [ms3]
    are the three values of [duration.count()]. *)
Definition case8 (fuel : nat) (ms1 ms2 ms3 : Z) (s : Session)
    : outcome (Session * list event) :=
  if decide (s_bids s = []) then Ret (s, [Cout "Please load bids first."])
  else
    tempBids ← selectionSort (s_bids s);
    let '(files, exported1) :=
      exportBenchmarkToCSV show_double (s_files s) "benchmark_results.csv" "SelectionSort"
        (Z.of_nat (length tempBids)) (Finite (inject_Z ms1)) in
    tempBids ← quickSort fuel (s_bids s) 0 (last_index (s_bids s));
    let '(files, exported2) :=
      exportBenchmarkToCSV show_double files "benchmark_results.csv" "QuickSort"
        (Z.of_nat (length tempBids)) (Finite (inject_Z ms2)) in
    tempBids ← mergeSort fuel (s_bids s) 0 (last_index (s_bids s));
    let '(files, exported3) :=
      exportBenchmarkToCSV show_double files "benchmark_results.csv" "MergeSort"
        (Z.of_nat (length tempBids)) (Finite (inject_Z ms3)) in
    Ret (mkSession (s_bids s) (s_bidHashMap s) files,
         [Cout (endl +:+ "=== Running All Sorting Benchmarks ===");
          Cout (endl +:+ "1. Selection Sort...");
          Cout ("Time: " +:+ pretty ms1 +:+ " ms")] ++ exported1 ++
         [Cout (endl +:+ "2. Quick Sort...");
          Cout ("Time: " +:+ pretty ms2 +:+ " ms")] ++ exported2 ++
         [Cout (endl +:+ "3. Merge Sort...");
          Cout ("Time: " +:+ pretty ms3 +:+ " ms")] ++ exported3 ++
         [Cout (endl +:+ "=== Benchmark Complete ===");
          Cout "Results exported to benchmark_results.csv"]).
End menu.

Definition titled (ts : list string) : list Bid :=
  (λ t, mkBid "" t "" (Finite 0)) <$> ts.

(** ** Vocabulary of the statements *)

(** The bids with a given title, for stability: a sort is stable when, for
    every title, the bids of that title come out in the order they went in. *)
Definition has_title (t : string) (b : Bid) : Prop := title b = t.

#[global] Instance has_title_dec t b : Decision (has_title t b).
Proof. unfold has_title. apply _. Defined.

(** [x] occurs before [y] in [l]. *)
Definition occurs_before (x y : Bid) (l : list Bid) : Prop := [x; y] `sublist_of` l.

(** A value below zero; not-a-number is on neither side of zero. *)
Definition negative (d : double) : Prop :=
  match d with
  | Finite q => (q < 0)%Q
  | Infinity neg => neg = true
  | NaN => False
  end.

Definition is_digit (c : ascii) : bool := bool_decide (is_Some (digit_val c)).

(** The text [atof] looks at: what follows the white space and the sign. *)
Definition subject (s : string) : string := (read_sign (skip_spaces s)).2.

(** The text begins with a number as [atof] knows them: a digit, a point
    followed by a digit, INF or NAN. *)
Definition begins_number (s : string) : bool :=
  match subject s with
  | String c r =>
      is_digit c
      || (Ascii.eqb c "." && (if r is String d _ then is_digit d else false))
      || prefix_ci "inf" (subject s) || prefix_ci "nan" (subject s)
  | EmptyString => false
  end.

(** The spec's reading of the amount column: one currency symbol is
    stripped, the first one of the text. *)
Fixpoint strip_one (ch : ascii) (str : string) : string :=
  match str with
  | String c str' => if Ascii.eqb c ch then str' else String c (strip_one ch str')
  | EmptyString => EmptyString
  end.

(** A bid that renders a row: title, identifier and fund are columns 0, 1
    and 8 as they are, and the amount is [strToDouble] of column 4. *)
Definition row_bid (row : list string) (bid : Bid) : Prop :=
  row !! 0%nat = Some (title bid) ∧ row !! 1%nat = Some (bidId bid) ∧
  row !! 8%nat = Some (fund bid) ∧
  ∃ col4, row !! 4%nat = Some col4 ∧ amount bid = strToDouble col4 "$".








(** One line of results as the file holds it. *)
Definition data_line (show_double : double → string) (algorithm : string) (dataSize : Z)
    (timeMs : double) : string :=
  algorithm +:+ "," +:+ pretty dataSize +:+ "," +:+ show_double timeMs +:+ endl.

(** The positions before [i] hold their final bids: each is no greater than
    every bid after it. *)
Definition settled (i : nat) (bids : list Bid) : Prop :=
  ∀ p q bp bq, (p < i)%nat → (p < q)%nat →
    bids !! p = Some bp → bids !! q = Some bq → title_le bp bq.

(** Position [i], an [int], holds [b]. *)
Definition holds (bids : list Bid) (i : Z) (b : Bid) : Prop :=
  0 ≤ i ∧ bids !! Z.to_nat i = Some b.

(** The positions outside [start .. end_] hold what they held. *)
Definition same_outside (start end_ : Z) (bids bids0 : list Bid) : Prop :=
  ∀ i : nat, Z.of_nat i < start ∨ end_ < Z.of_nat i → bids !! i = bids0 !! i.

(** The state of [partition] each time its outer loop tests [left <= right]:
    what is left of [left] is no greater than the pivot, what is right of
    [right] is no less, each inner loop has a bid that stops it inside the
    range, and either a swap has moved [right] or the pivot is still between
    [left] and [right]. *)
Definition partition_inv (bids0 : list Bid) (start end_ : Z) (p : string)
    (bids : list Bid) (left right : Z) : Prop :=
  0 ≤ start ∧ end_ < Z.of_nat (length bids) ∧
  start ≤ left ∧ right ≤ end_ ∧ start - 1 ≤ right ∧
  bids ≡ₚ bids0 ∧ same_outside start end_ bids bids0 ∧
  (∀ i b, start ≤ i < left → holds bids i b → (title b <=? p)%string = true) ∧
  (∀ j b, right < j ≤ end_ → holds bids j b → (p <=? title b)%string = true) ∧
  (left ≤ right →
     (∃ k bk, left ≤ k ≤ end_ ∧ holds bids k bk ∧ (title bk <? p)%string = false) ∧
     (∃ k bk, start ≤ k ≤ right ∧ holds bids k bk ∧ (p <? title bk)%string = false)) ∧
  (right < end_ ∨ ∃ m bm, left ≤ m ≤ right ∧ holds bids m bm ∧ title bm = p).

(** What [partition] returns: a position [mid] from [start - 1] to [end_ - 1]
    and a rearrangement of the range, with nothing greater than the pivot
    up to [mid] and nothing less after it. *)
Definition partition_post (bids0 : list Bid) (start end_ : Z) (p : string)
    (mid : Z) (bids : list Bid) : Prop :=
  start - 1 ≤ mid < end_ ∧
  bids ≡ₚ bids0 ∧ same_outside start end_ bids bids0 ∧
  (∀ i b, start ≤ i ≤ mid → holds bids i b → (title b <=? p)%string = true) ∧
  (∀ j b, mid < j ≤ end_ → holds bids j b → (p <=? title b)%string = true).

(** Both streams on the name open: the one that reads and the one that
    appends. *)
Definition opens (fs : FileSystem) (filename : string) : Prop :=
  fs_reads fs filename = true ∧ fs_appends fs filename = true.

(** What a sorting choice of the menu leaves behind: the vector sorted, the
    map as it was, and every other file as it was; where
    benchmark_results.csv opens, one more line in it, after the header when
    the file did not exist, and where it does not open for appending, the
    files as they were. *)
Definition sort_choice_done (show_double : double → string) (algorithm : string) (ms : Z)
    (s s' : Session) : Prop :=
  s_bids s' ≡ₚ s_bids s ∧ Sorted title_le (s_bids s') ∧
  s_bidHashMap s' = s_bidHashMap s ∧
  (∀ g, g ≠ "benchmark_results.csv" → s_files s' !! g = s_files s !! g) ∧
  (opens (s_files s) "benchmark_results.csv" →
   s_files s' !! "benchmark_results.csv" =
     Some ((match s_files s !! "benchmark_results.csv" with
            | Some content => content
            | None => csv_header +:+ endl
            end) +:+ data_line show_double algorithm (Z.of_nat (length (s_bids s)))
                               (Finite (inject_Z ms)))) ∧
  (fs_appends (s_files s) "benchmark_results.csv" = false → s_files s' = s_files s).

(** * Properties *)

(** ** The order on titles *)

Section string_order.
Implicit Types a b c : string.

Lemma compare_refl a : (a ?= a)%string = Eq.
Proof. by apply String_as_OT.cmp_eq. Qed.

Lemma compare_lt_trans a b c :
  (a ?= b)%string = Lt → (b ?= c)%string = Lt → (a ?= c)%string = Lt.
Proof.
  rewrite !String_as_OT.cmp_lt. apply String_as_OT.lt_trans.
Qed.

Lemma compare_gt_lt a b : (a ?= b)%string = Gt ↔ (b ?= a)%string = Lt.
Proof.
  rewrite (String.compare_antisym a b). destruct (b ?= a)%string; simpl; split; congruence.
Qed.

Lemma ltb_lt a b : (a <? b)%string = true ↔ (a ?= b)%string = Lt.
Proof. unfold String.ltb. destruct (a ?= b)%string; split; congruence. Qed.

Lemma leb_le a b : (a <=? b)%string = true ↔ (a ?= b)%string ≠ Gt.
Proof. unfold String.leb. destruct (a ?= b)%string; split; congruence. Qed.

Lemma leb_refl a : (a <=? a)%string = true.
Proof. apply leb_le. by rewrite compare_refl. Qed.

Lemma leb_trans a b c :
  (a <=? b)%string = true → (b <=? c)%string = true → (a <=? c)%string = true.
Proof.
  rewrite !leb_le. intros Hab Hbc.
  destruct (a ?= b)%string eqn:E1; [..|done].
  { apply String.compare_eq_iff in E1 as ->. done. }
  destruct (b ?= c)%string eqn:E2; [..|done].
  { apply String.compare_eq_iff in E2 as ->. by rewrite E1. }
  by rewrite (compare_lt_trans _ _ _ E1 E2).
Qed.

Lemma ltb_leb a b : (a <? b)%string = true → (a <=? b)%string = true.
Proof. rewrite ltb_lt, leb_le. by intros ->. Qed.

Lemma ltb_false_leb a b : (a <? b)%string = false ↔ (b <=? a)%string = true.
Proof.
  rewrite leb_le, compare_gt_lt. rewrite <-ltb_lt. by destruct (a <? b)%string.
Qed.

Lemma leb_false_ltb a b : (a <=? b)%string = false ↔ (b <? a)%string = true.
Proof.
  rewrite ltb_lt, <-compare_gt_lt. unfold String.leb.
  destruct (a ?= b)%string; split; congruence.
Qed.

Lemma ltb_irrefl a : (a <? a)%string = false.
Proof. apply ltb_false_leb, leb_refl. Qed.

Lemma ltb_leb_trans a b c :
  (a <? b)%string = true → (b <=? c)%string = true → (a <? c)%string = true.
Proof.
  intros Hab Hbc. destruct (a <? c)%string eqn:E; [done|].
  apply ltb_false_leb in E. pose proof (leb_trans _ _ _ Hbc E) as Hba.
  apply ltb_false_leb in Hba. congruence.
Qed.

Lemma leb_ltb_trans a b c :
  (a <=? b)%string = true → (b <? c)%string = true → (a <? c)%string = true.
Proof.
  intros Hab Hbc. destruct (a <? c)%string eqn:E; [done|].
  apply ltb_false_leb in E. pose proof (leb_trans _ _ _ E Hab) as Hcb.
  apply ltb_false_leb in Hcb. congruence.
Qed.
End string_order.

#[global] Instance title_le_refl : Reflexive title_le.
Proof. intros b. apply leb_refl. Qed.

#[global] Instance title_le_trans : Transitive title_le.
Proof. intros a b c. apply leb_trans. Qed.

#[global] Instance title_le_dec a b : Decision (title_le a b).
Proof. unfold title_le. apply _. Defined.

Lemma title_le_total a b : title_le a b ∨ title_le b a.
Proof. apply String.leb_total. Qed.

Lemma title_le_antisym a b : title_le a b → title_le b a → title a = title b.
Proof. apply String.leb_antisym. Qed.

(** Sortedness read off the positions. *)
Lemma StronglySorted_lookup_2 (l : list Bid) :
  (∀ p q bp bq, (p < q)%nat → l !! p = Some bp → l !! q = Some bq → title_le bp bq) →
  StronglySorted title_le l.
Proof.
  induction l as [|x l IH]; intros H; constructor.
  - apply IH. intros p q bp bq Hpq Hp Hq. by apply (H (S p) (S q)); [lia|..].
  - apply Forall_lookup. intros q bq Hq. by apply (H 0%nat (S q)); [lia|..].
Qed.

Lemma StronglySorted_lookup_1 (l : list Bid) p q bp bq :
  StronglySorted title_le l → (p ≤ q)%nat →
  l !! p = Some bp → l !! q = Some bq → title_le bp bq.
Proof.
  intros Hl. revert p q. induction Hl as [|x l _ IH Hx]; intros p q Hpq Hp Hq; [done|].
  destruct p as [|p], q as [|q]; simplify_eq/=; [done| |lia|].
  - rewrite Forall_lookup in Hx. eauto.
  - apply (IH p q); [lia|done..].
Qed.

(** ** Vector access within range *)

Section vector_facts.
Context {A : Type}.
Implicit Types v : list A.

Lemma vec_at_Some v i x : v !! i = Some x → vec_at v i = Ret x.
Proof. unfold vec_at. by intros ->. Qed.

Lemma vec_get_Some v (i : nat) x : v !! i = Some x → vec_get v (Z.of_nat i) = Ret x.
Proof.
  intros Hi. unfold vec_get. rewrite decide_True by lia.
  rewrite Nat2Z.id. by apply vec_at_Some.
Qed.

Lemma vec_set_lt v (i : nat) x :
  (i < length v)%nat → vec_set v (Z.of_nat i) x = Ret (<[i := x]> v).
Proof.
  intros Hi. unfold vec_set. rewrite decide_True by lia. by rewrite Nat2Z.id.
Qed.

Lemma swap_at_Some v i j x y :
  v !! i = Some x → v !! j = Some y → swap_at v i j = Ret (<[j := x]> (<[i := y]> v)).
Proof.
  intros Hi Hj. unfold swap_at. by rewrite (vec_at_Some _ _ _ Hi), (vec_at_Some _ _ _ Hj).
Qed.

Lemma vec_swap_Some v (i j : nat) x y :
  v !! i = Some x → v !! j = Some y →
  vec_swap v (Z.of_nat i) (Z.of_nat j) = Ret (<[j := x]> (<[i := y]> v)).
Proof.
  intros Hi Hj. unfold vec_swap.
  rewrite (vec_get_Some _ _ _ Hi), (vec_get_Some _ _ _ Hj). simpl.
  rewrite vec_set_lt by eauto using lookup_lt_Some. simpl.
  rewrite vec_set_lt; [done|]. rewrite length_insert. eauto using lookup_lt_Some.
Qed.

(** What a position holds after two positions were exchanged. *)
Lemma lookup_swapped v i j x y q :
  v !! i = Some x → v !! j = Some y →
  <[j := x]> (<[i := y]> v) !! q =
    if decide (q = j) then Some x else if decide (q = i) then Some y else v !! q.
Proof.
  intros Hi Hj. apply lookup_lt_Some in Hi as Hi', Hj as Hj'.
  case_decide as Hqj; [subst|].
  { rewrite list_lookup_insert_eq; [done|by rewrite length_insert]. }
  rewrite list_lookup_insert_ne by done.
  case_decide as Hqi; [subst|].
  { by rewrite list_lookup_insert_eq. }
  by rewrite list_lookup_insert_ne.
Qed.
End vector_facts.

(** ** selectionSort is total and sorts *)

(** The inner loop returns a position of a lowest title among [lowest] and
    the positions from [j] on. *)
Lemma lowest_from_spec n bids j lowest :
  (lowest < j)%nat → (j + n = length bids)%nat →
  ∃ m bm, lowest_from n bids j lowest = Ret m ∧ (lowest ≤ m < length bids)%nat ∧
    bids !! m = Some bm ∧
    ∀ q bq, (q = lowest ∨ j ≤ q)%nat → bids !! q = Some bq → title_le bm bq.
Proof.
  revert j lowest. induction n as [|n IH]; intros j lowest Hlt Hlen; simpl.
  - destruct (lookup_lt_is_Some_2 bids lowest) as [bl Hbl]; [lia|].
    exists lowest, bl. split_and!; [done|lia|lia|done|].
    intros q bq [->|Hq] Hbq; [by simplify_eq|].
    apply lookup_lt_Some in Hbq. lia.
  - destruct (lookup_lt_is_Some_2 bids lowest) as [bl Hbl]; [lia|].
    destruct (lookup_lt_is_Some_2 bids j) as [bj Hbj]; [lia|].
    rewrite (vec_at_Some _ _ _ Hbj), (vec_at_Some _ _ _ Hbl). simpl.
    set (lowest' := if (title bj ?= title bl)%string is Lt then j else lowest).
    assert (Hl' : (lowest ≤ lowest' ≤ j)%nat).
    { unfold lowest'. destruct (title bj ?= title bl)%string; lia. }
    destruct (IH (S j) lowest') as (m & bm & -> & Hm & Hbm & Hmin); [lia..|].
    exists m, bm. split_and!; [done|lia|lia|done|].
    assert (∃ bl', bids !! lowest' = Some bl' ∧ title_le bl' bl ∧ title_le bl' bj)
      as (bl' & Hbl' & Hl1 & Hl2).
    { unfold lowest'. destruct (title bj ?= title bl)%string eqn:E.
      - exists bl. split_and!; [done..|]. apply leb_le.
        rewrite compare_gt_lt. apply String.compare_eq_iff in E. rewrite E.
        by rewrite compare_refl.
      - exists bj. split_and!; [done| |done]. by apply ltb_leb, ltb_lt.
      - exists bl. split_and!; [done..|]. apply leb_le.
        intros E'. apply compare_gt_lt in E'. congruence. }
    assert (title_le bm bl') as Hml by (apply (Hmin lowest'); auto).
    intros q bq [->|Hq] Hbq.
    + simplify_eq. by etrans.
    + destruct (decide (q = j)) as [->|]; [simplify_eq; by etrans|].
      apply (Hmin q); [lia|done].
Qed.

Lemma selectionSort_from_spec n bids i :
  (i + n = length bids)%nat → settled i bids →
  ∃ out, selectionSort_from n bids i = Ret out ∧ out ≡ₚ bids ∧ settled (length out) out.
Proof.
  revert bids i. induction n as [|n IH]; intros bids i Hlen Hset; simpl.
  { exists bids. split_and!; [done..|]. by replace (length bids) with i by lia. }
  destruct (lowest_from_spec (length bids - S i) bids (S i) i)
    as (m & bm & -> & Hm & Hbm & Hmin); [lia..|]. simpl.
  destruct (lookup_lt_is_Some_2 bids i) as [bi Hbi]; [lia|].
  set (bids' := <[m := bi]> (<[i := bm]> bids)).
  assert ((if decide (m ≠ i) then swap_at bids i m else Ret bids) = Ret bids') as ->.
  { case_decide as Hmi.
    - by apply swap_at_Some.
    - assert (m = i) as -> by lia. simplify_eq. unfold bids'.
      by rewrite list_insert_insert_eq, list_insert_id. }
  simpl.
  assert (Hperm : bids' ≡ₚ bids) by by apply Permutation_insert_swap.
  assert (Hlook : ∀ q, bids' !! q =
    if decide (q = m) then Some bi else if decide (q = i) then Some bm else bids !! q).
  { intros q. by apply lookup_swapped. }
  destruct (IH bids' (S i)) as (out & -> & Hout & Hsorted).
  - unfold bids'. rewrite !length_insert. lia.
  - intros p q bp bq Hp Hpq. rewrite !Hlook. intros Hbp Hbq.
    assert (∃ q', bids !! q' = Some bq ∧ (p < i → p < q')%nat ∧ (i < q → i ≤ q')%nat)
      as (q' & Hq' & Hq'p & Hq'i).
    { destruct (decide (q = m)) as [->|]; [exists i; simplify_eq; split_and!; (done || lia)|].
      destruct (decide (q = i)) as [->|]; [exists m; simplify_eq; split_and!; (done || lia)|].
      exists q. split_and!; [done|lia|lia]. }
    destruct (decide (p = i)) as [->|Hpi].
    + assert (bp = bm) as ->.
      { clear Hbq. destruct (decide (i = m)) as [<-|]; [by simplify_eq|].
        by simplify_eq. }
      apply (Hmin q'); [lia|done].
    + clear Hbq. rewrite (decide_False (P := p = m)) in Hbp by lia.
      apply (Hset p q'); [lia|lia|done..].
  - exists out. split_and!; [done|by etrans|done].
Qed.

(** [selectionSort] returns on every vector, and returns it sorted. *)
Theorem selectionSort_sorts bids :
  ∃ out, selectionSort bids = Ret out ∧ out ≡ₚ bids ∧ Sorted title_le out.
Proof.
  destruct (selectionSort_from_spec (length bids) bids 0) as (out & Hout & Hperm & Hset).
  - done.
  - intros p q bp bq Hp. lia.
  - exists out. split_and!; [done..|].
    apply StronglySorted_Sorted, StronglySorted_lookup_2.
    intros p q bp bq Hpq Hp Hq. apply (Hset p q); [|done..].
    apply lookup_lt_Some in Hq. lia.
Qed.

(** ** merge writes the stable merge of the two halves *)

#[global] Instance title_le_total_inst : Total title_le.
Proof. intros a b. apply title_le_total. Qed.

Lemma copy_loop_spec n bids (from : nat) arr (i : nat) :
  (from + i + n ≤ length bids)%nat → (i + n ≤ length arr)%nat →
  copy_loop n bids (Z.of_nat from) arr (Z.of_nat i) =
    Ret (take i arr ++ take n (drop (from + i) bids) ++ drop (i + n) arr).
Proof.
  revert arr i. induction n as [|n IH]; intros arr i Hb Ha; simpl.
  { by rewrite Nat.add_0_r, take_drop. }
  destruct (lookup_lt_is_Some_2 bids (from + i)) as [b Hb']; [lia|].
  rewrite <-Nat2Z.inj_add, (vec_get_Some _ _ _ Hb'). simpl.
  rewrite vec_set_lt by lia. simpl.
  replace (Z.of_nat i + 1) with (Z.of_nat (S i)) by lia.
  rewrite IH by (rewrite ?length_insert; lia). f_equal.
  rewrite (take_S_r _ _ b) by (apply list_lookup_insert_eq; lia).
  rewrite take_insert_ge by lia.
  rewrite drop_insert_lt by lia.
  rewrite (drop_S bids b (from + i)) by done. simpl.
  rewrite <-(assoc_L (++)). simpl.
  replace (i + S n)%nat with (S i + n)%nat by lia.
  by replace (S (from + i)) with (from + S i)%nat by lia.
Qed.

Lemma merge_rest_spec n arr bids (i k : nat) :
  (i ≤ length arr)%nat → (length arr - i ≤ n)%nat →
  (k + (length arr - i) ≤ length bids)%nat →
  merge_rest n arr (Z.of_nat (length arr)) bids (Z.of_nat i) (Z.of_nat k) =
    Ret (Z.of_nat (k + (length arr - i)),
         take k bids ++ drop i arr ++ drop (k + (length arr - i)) bids).
Proof.
  revert bids i k. induction n as [|n IH]; intros bids i k Hi Hn Hk; simpl.
  - rewrite decide_False by lia.
    replace (length arr - i)%nat with 0%nat by lia.
    rewrite Nat.add_0_r, drop_ge by lia. simpl. by rewrite take_drop.
  - case_decide as Hlt.
    + destruct (lookup_lt_is_Some_2 arr i) as [x Hx]; [lia|].
      rewrite (vec_get_Some _ _ _ Hx). simpl.
      rewrite vec_set_lt by lia. simpl.
      replace (Z.of_nat i + 1) with (Z.of_nat (S i)) by lia.
      replace (Z.of_nat k + 1) with (Z.of_nat (S k)) by lia.
      rewrite IH by (rewrite ?length_insert; lia).
      replace (S k + (length arr - S i))%nat with (k + (length arr - i))%nat by lia.
      do 2 f_equal.
      rewrite (take_S_r _ _ x) by (apply list_lookup_insert_eq; lia).
      rewrite take_insert_ge by lia. rewrite drop_insert_lt by lia.
      rewrite (drop_S arr x i) by done. by rewrite <-(assoc_L (++)).
    + replace (length arr - i)%nat with 0%nat by lia.
      rewrite Nat.add_0_r, drop_ge by lia. simpl. by rewrite take_drop.
Qed.

Lemma merge_both_done n L R ls rs bids i j k :
  ¬ (i < ls ∧ j < rs) → merge_both n L R ls rs bids i j k = Ret (i, j, k, bids).
Proof. intros ?. destruct n; simpl; by rewrite decide_False. Qed.

(** The two [while] loops that copy what is left of either half. *)
Lemma merge_drain_spec nl nr L R bids (i j k : nat) :
  (i ≤ length L)%nat → (j ≤ length R)%nat → (i = length L ∨ j = length R) →
  (length L ≤ nl)%nat → (length R ≤ nr)%nat →
  (k + (length L - i) + (length R - j) ≤ length bids)%nat →
  ('(k'', bids2) ← merge_rest nl L (Z.of_nat (length L)) bids (Z.of_nat i) (Z.of_nat k);
   '(_, bids3) ← merge_rest nr R (Z.of_nat (length R)) bids2 (Z.of_nat j) k'';
   Ret bids3) =
  Ret (take k bids ++ list_merge title_le (drop i L) (drop j R)
         ++ drop (k + (length L - i) + (length R - j)) bids).
Proof.
  intros Hi Hj Hend Hnl Hnr Hk.
  rewrite merge_rest_spec by lia. simpl.
  rewrite merge_rest_spec by (rewrite ?length_app, ?length_take, ?length_drop; lia).
  simpl. f_equal. destruct Hend as [->| ->].
  - rewrite Nat.sub_diag, !Nat.add_0_r, (drop_all L), list_merge_nil_l. simpl.
    by rewrite take_drop.
  - rewrite Nat.sub_diag, !Nat.add_0_r, (drop_all R), list_merge_nil_r. simpl.
    apply take_drop.
Qed.

(** The three [while] loops of [merge], from any point they can reach. *)
Lemma merge_loops_spec n nl nr L R bids (i j k : nat) :
  (i ≤ length L)%nat → (j ≤ length R)%nat →
  ((length L - i) + (length R - j) ≤ n)%nat →
  (length L ≤ nl)%nat → (length R ≤ nr)%nat →
  (k + (length L - i) + (length R - j) ≤ length bids)%nat →
  ('(i', j', k', bids1) ← merge_both n L R (Z.of_nat (length L)) (Z.of_nat (length R))
                            bids (Z.of_nat i) (Z.of_nat j) (Z.of_nat k);
   '(k'', bids2) ← merge_rest nl L (Z.of_nat (length L)) bids1 i' k';
   '(_, bids3) ← merge_rest nr R (Z.of_nat (length R)) bids2 j' k'';
   Ret bids3) =
  Ret (take k bids ++ list_merge title_le (drop i L) (drop j R)
         ++ drop (k + (length L - i) + (length R - j)) bids).
Proof.
  revert bids i j k. induction n as [|n IH]; intros bids i j k Hi Hj Hn Hnl Hnr Hk.
  all: destruct (decide (Z.of_nat i < Z.of_nat (length L) ∧ Z.of_nat j < Z.of_nat (length R)))
    as [[Hil Hjr]|Hdone]; [try lia|..].
  1,3: rewrite merge_both_done by done; simpl; apply merge_drain_spec; lia.
  simpl. rewrite decide_True by done.
  destruct (lookup_lt_is_Some_2 L i) as [l Hl]; [lia|].
  destruct (lookup_lt_is_Some_2 R j) as [r Hr]; [lia|].
  rewrite (vec_get_Some _ _ _ Hl), (vec_get_Some _ _ _ Hr). simpl.
  rewrite (drop_S L l i), (drop_S R r j), list_merge_cons by done.
  replace (Z.of_nat i + 1) with (Z.of_nat (S i)) by lia.
  replace (Z.of_nat j + 1) with (Z.of_nat (S j)) by lia.
  replace (Z.of_nat k + 1) with (Z.of_nat (S k)) by lia.
  destruct (title l <=? title r)%string eqn:Hle.
  - rewrite decide_True by done.
    rewrite vec_set_lt by lia. simpl.
    rewrite IH by (rewrite ?length_insert; lia). f_equal.
    rewrite (take_S_r _ _ l) by (apply list_lookup_insert_eq; lia).
    rewrite take_insert_ge by lia. rewrite drop_insert_lt by lia.
    rewrite <-(drop_S R r j) by done. rewrite <-(assoc_L (++)). simpl.
    do 4 f_equal. lia.
  - rewrite decide_False by (unfold title_le; congruence).
    rewrite vec_set_lt by lia. simpl.
    rewrite IH by (rewrite ?length_insert; lia). f_equal.
    rewrite (take_S_r _ _ r) by (apply list_lookup_insert_eq; lia).
    rewrite take_insert_ge by lia. rewrite drop_insert_lt by lia.
    rewrite <-(drop_S L l i) by done. rewrite <-(assoc_L (++)). simpl.
    do 4 f_equal. lia.
Qed.

Lemma merge_spec pre s1 s2 post left mid right :
  left = Z.of_nat (length pre) →
  mid = Z.of_nat (length pre + length s1) - 1 →
  right = Z.of_nat (length pre + length s1 + length s2) - 1 →
  merge (pre ++ s1 ++ s2 ++ post) left mid right =
    Ret (pre ++ list_merge title_le s1 s2 ++ post).
Proof.
  intros -> -> ->. unfold merge.
  replace (Z.of_nat (length pre + length s1) - 1 - Z.of_nat (length pre) + 1)
    with (Z.of_nat (length s1)) by lia.
  replace (Z.of_nat (length pre + length s1 + length s2) - 1
             - (Z.of_nat (length pre + length s1) - 1))
    with (Z.of_nat (length s2)) by lia.
  replace (Z.of_nat (length pre + length s1) - 1 + 1)
    with (Z.of_nat (length pre + length s1)) by lia.
  unfold vec_new. rewrite !decide_True by lia. simpl.
  rewrite <-Nat2Z.inj_add, !Nat2Z.id.
  rewrite (copy_loop_spec _ _ (length pre) _ 0), (copy_loop_spec _ _ (length pre + length s1) _ 0);
    rewrite ?length_replicate, ?length_app; try lia.
  simpl. rewrite !Nat.add_0_r.
  rewrite !(drop_ge (replicate _ _)) by (rewrite length_replicate; lia).
  rewrite !(right_id_L [] (++)).
  rewrite drop_app_length, take_app_length.
  rewrite (assoc_L (++) pre s1), drop_app_length', take_app_length
    by (rewrite length_app; lia).
  pose proof (merge_loops_spec (length s1 + length s2) (length s1) (length s2) s1 s2
    (pre ++ s1 ++ s2 ++ post) 0 0 (length pre)) as Hloops.
  change (Z.of_nat 0) with 0 in Hloops.
  rewrite <-(assoc_L (++) pre s1). rewrite Hloops; clear Hloops;
    rewrite ?length_app; try lia.
  f_equal. rewrite take_app_length. do 2 f_equal.
  rewrite !Nat.sub_0_r.
  rewrite <-Nat.add_assoc, drop_app_add.
  replace (length s1 + length s2)%nat with (length (s1 ++ s2)) by by rewrite length_app.
  by rewrite (assoc_L (++) s1 s2), drop_app_length.
Qed.

(** ** mergeSort is total, sorts and is stable *)

Lemma half_bounds a : 0 ≤ a → a - 1 ≤ 2 * (a `quot` 2) ≤ a.
Proof.
  intros Ha. rewrite Z.quot_div_nonneg by lia.
  pose proof (Z.div_mod a 2). pose proof (Z.mod_pos_bound a 2). lia.
Qed.

Lemma filter_none (P : Bid → Prop) `{!∀ b, Decision (P b)} (l : list Bid) :
  Forall (λ b, ¬ P b) l → filter P l = [].
Proof. induction 1; [done|]. by rewrite filter_cons_False. Qed.

(** The merge keeps, for every title, the bids of the left half before those
    of the right half. *)
Lemma list_merge_filter t l1 l2 :
  StronglySorted title_le l1 →
  filter (has_title t) (list_merge title_le l1 l2) =
    filter (has_title t) l1 ++ filter (has_title t) l2.
Proof.
  intros Hl1. revert l2. induction Hl1 as [|x l1 Hl1 IH Hx]; intros l2.
  { by rewrite list_merge_nil_l. }
  induction l2 as [|y l2 IH2].
  { by rewrite list_merge_nil_r, filter_nil, (right_id_L [] (++)). }
  rewrite list_merge_cons. case_decide as Hxy.
  - rewrite !(filter_cons _ x), IH. by destruct (decide (has_title t x)).
  - rewrite !(filter_cons _ y), IH2. destruct (decide (has_title t y)) as [Hy|]; [|done].
    assert (filter (has_title t) (x :: l1) = []) as ->; [|done].
    assert (Hyx : (title y <? title x)%string = true).
    { apply leb_false_ltb. unfold title_le in Hxy. by destruct (title x <=? title y)%string. }
    assert (Hnot : ∀ b, title_le x b → ¬ has_title t b).
    { unfold has_title in *. intros b Hb Ht. subst t.
      pose proof (ltb_leb_trans _ _ _ Hyx Hb) as Hlt. rewrite <-Ht, ltb_irrefl in Hlt. done. }
    apply filter_none. constructor; [by apply Hnot|].
    eapply Forall_impl; [exact Hx|]. intros b Hb. by apply Hnot.
Qed.

Lemma mergeSort_spec fuel pre seg post left right :
  (length seg ≤ fuel)%nat → seg ≠ [] →
  left = Z.of_nat (length pre) → right = Z.of_nat (length pre + length seg) - 1 →
  ∃ seg', mergeSort fuel (pre ++ seg ++ post) left right = Ret (pre ++ seg' ++ post) ∧
    Sorted title_le seg' ∧ seg' ≡ₚ seg ∧
    ∀ t, filter (has_title t) seg' = filter (has_title t) seg.
Proof.
  revert pre seg post left right.
  induction fuel as [|fuel IH]; intros pre seg post left right Hfuel Hne -> ->.
  { destruct seg; [done|simpl in *; lia]. }
  simpl. case_decide as Hlr.
  - pose proof (half_bounds (Z.of_nat (length pre + length seg) - 1 - Z.of_nat (length pre))) as Hq.
    set (q := (Z.of_nat (length pre + length seg) - 1 - Z.of_nat (length pre)) `quot` 2) in *.
    set (h := Z.to_nat (q + 1)).
    assert (Hhq : Z.of_nat h = q + 1) by (unfold h; lia).
    assert (Hh : (1 ≤ h < length seg)%nat) by lia.
    clearbody h q.
    destruct (IH pre (take h seg) (drop h seg ++ post) (Z.of_nat (length pre))
                (Z.of_nat (length pre) + q)) as (s1 & Hs1 & Hsorted1 & Hperm1 & Hst1).
    { rewrite length_take. lia. }
    { intros E. apply (f_equal length) in E. rewrite length_take in E. simpl in E. lia. }
    { done. }
    { rewrite length_take. lia. }
    rewrite (assoc_L (++) (take h seg)), take_drop in Hs1. rewrite Hs1. simpl.
    assert (Hl1 : length s1 = h).
    { rewrite (Permutation_length Hperm1), length_take. lia. }
    destruct (IH (pre ++ s1) (drop h seg) post (Z.of_nat (length pre) + q + 1)
                (Z.of_nat (length pre + length seg) - 1)) as (s2 & Hs2 & Hsorted2 & Hperm2 & Hst2).
    { rewrite length_drop. lia. }
    { intros E. apply (f_equal length) in E. rewrite length_drop in E. simpl in E. lia. }
    { rewrite length_app. lia. }
    { rewrite length_app, length_drop. lia. }
    rewrite <-(assoc_L (++)) in Hs2. rewrite Hs2. simpl.
    assert (Hl2 : (length s2 = length seg - h)%nat).
    { by rewrite (Permutation_length Hperm2), length_drop. }
    exists (list_merge title_le s1 s2). split_and!.
    + rewrite <-(assoc_L (++)). apply merge_spec; lia.
    + apply Sorted_list_merge; [apply _|done..].
    + by rewrite merge_Permutation, Hperm1, Hperm2, take_drop.
    + intros t. rewrite list_merge_filter by by apply Sorted_StronglySorted; [apply _|].
      by rewrite Hst1, Hst2, <-filter_app, take_drop.
  - exists seg. split_and!; [done| |done..].
    destruct seg as [|x [|y seg]]; [done| |simpl in *; lia].
    repeat constructor.
Qed.

Lemma mergeSort_whole fuel bids :
  (length bids ≤ fuel)%nat →
  ∃ out, mergeSort fuel bids 0 (last_index bids) = Ret out ∧
    Sorted title_le out ∧ out ≡ₚ bids ∧
    ∀ t, filter (has_title t) out = filter (has_title t) bids.
Proof.
  intros Hfuel. destruct (decide (bids = [])) as [->|Hne].
  { exists []. split_and!; [|constructor|done..]. by destruct fuel. }
  destruct (mergeSort_spec fuel [] bids [] 0 (last_index bids))
    as (out & Hout & ?); [done|done|done|unfold last_index; simpl; lia|].
  simpl in Hout. rewrite !(right_id_L [] (++)) in Hout. eauto.
Qed.

(** [mergeSort] on the whole vector returns, given a budget of the vector's
    size, and returns it sorted. *)
Theorem mergeSort_sorts fuel bids :
  (length bids ≤ fuel)%nat →
  ∃ out, mergeSort fuel bids 0 (last_index bids) = Ret out ∧
    out ≡ₚ bids ∧ Sorted title_le out.
Proof.
  intros Hfuel. destruct (mergeSort_whole fuel bids Hfuel) as (out & ? & ? & ? & _). eauto.
Qed.

Lemma filter_sublist (P : Bid → Prop) `{!∀ b, Decision (P b)} (l1 l2 : list Bid) :
  l1 `sublist_of` l2 → filter P l1 `sublist_of` filter P l2.
Proof.
  induction 1 as [|x l1 l2 _ IH|x l1 l2 _ IH]; [done|..]; rewrite ?filter_cons;
    destruct (decide (P x)); auto using sublist_skip, sublist_cons.
Qed.

(** Equal bids-per-title sequences keep the order of any two bids of one title. *)
Lemma occurs_before_stable x y l out :
  title x = title y →
  (∀ t, filter (has_title t) out = filter (has_title t) l) →
  occurs_before x y l → occurs_before x y out.
Proof.
  unfold occurs_before. intros Hxy Hst Hl.
  apply (filter_sublist (has_title (title x))) in Hl.
  rewrite <-Hst in Hl.
  rewrite !filter_cons_True, filter_nil in Hl by (unfold has_title; done).
  etrans; [done|]. apply sublist_filter.
Qed.

(** ** binarySearch on a sorted vector *)

Lemma binarySearch_loop_done n bids t left right :
  ¬ left ≤ right → binarySearch_loop n bids t left right = Ret (-1).
Proof. intros ?. destruct n; simpl; by rewrite decide_False. Qed.

(** While every bid with the title sought lies in the window, the loop ends
    with the position of one of them, or with [-1] when there is none. *)
Lemma binarySearch_loop_spec n bids t left right :
  StronglySorted title_le bids →
  0 ≤ left → right < Z.of_nat (length bids) → right - left + 1 ≤ Z.of_nat n →
  (∀ (q : nat) b, bids !! q = Some b → title b = t → left ≤ Z.of_nat q ≤ right) →
  ∃ r, binarySearch_loop n bids t left right = Ret r ∧
    ((r = -1 ∧ ∀ b, b ∈ bids → title b ≠ t) ∨
     (∃ (i : nat) b, r = Z.of_nat i ∧ bids !! i = Some b ∧ title b = t)).
Proof.
  intros Hsorted. revert left right.
  induction n as [|n IH]; intros left right Hleft Hright Hn Hwin.
  all: destruct (decide (left ≤ right)) as [Hlr|Hlr]; [try lia|..].
  1,3: exists (-1); split; [by apply binarySearch_loop_done|];
    left; split; [done|]; intros b [q Hq]%list_elem_of_lookup Ht;
    specialize (Hwin q b Hq Ht); lia.
  simpl. rewrite decide_True by done.
  pose proof (half_bounds (right - left)) as Hq.
  set (mid := left + (right - left) `quot` 2).
  assert (Hmid : left ≤ mid ≤ right) by (unfold mid; lia). clearbody mid.
  destruct (lookup_lt_is_Some_2 bids (Z.to_nat mid)) as [b Hb]; [lia|].
  assert (vec_get bids mid = Ret b) as ->.
  { replace mid with (Z.of_nat (Z.to_nat mid)) by lia. by apply vec_get_Some. }
  simpl.
  destruct (title b =? t)%string eqn:Heq.
  { apply String.eqb_eq in Heq. exists mid. split; [done|]. right.
    exists (Z.to_nat mid), b. split_and!; [lia|done..]. }
  apply String.eqb_neq in Heq.
  destruct (title b <? t)%string eqn:Hlt.
  - apply IH; [lia..|]. intros q bq Hbq Ht.
    specialize (Hwin q bq Hbq Ht). split; [|lia].
    destruct (decide (Z.of_nat q ≤ mid)) as [Hle|]; [|lia].
    assert (title_le bq b) as Hqb.
    { apply (StronglySorted_lookup_1 bids q (Z.to_nat mid)); [done|lia|done..]. }
    pose proof (leb_ltb_trans _ _ _ Hqb Hlt) as Habs.
    rewrite Ht, ltb_irrefl in Habs. done.
  - apply IH; [lia..|]. intros q bq Hbq Ht.
    specialize (Hwin q bq Hbq Ht). split; [lia|].
    destruct (decide (mid ≤ Z.of_nat q)) as [Hle|]; [|lia].
    assert (title_le b bq) as Hbq'.
    { apply (StronglySorted_lookup_1 bids (Z.to_nat mid) q); [done|lia|done..]. }
    apply ltb_false_leb in Hlt. unfold title_le in Hbq'. rewrite Ht in Hbq'.
    destruct Heq. by apply String.leb_antisym.
Qed.

Lemma binarySearch_spec bids t :
  Sorted title_le bids →
  ∃ r, binarySearch bids t = Ret r ∧
    ((r = -1 ∧ ∀ b, b ∈ bids → title b ≠ t) ∨
     (∃ (i : nat) b, r = Z.of_nat i ∧ bids !! i = Some b ∧ title b = t)).
Proof.
  intros Hsorted. apply binarySearch_loop_spec; [|lia..|].
  - by apply Sorted_StronglySorted; [apply _|].
  - intros q b Hq _. apply lookup_lt_Some in Hq. lia.
Qed.

(** ** quickSort where partition leaves the low part empty *)

Lemma quickSort_base fuel bids begin end_ :
  begin >= end_ → quickSort fuel bids begin end_ = Ret bids.
Proof. intros ?. destruct fuel; simpl; by rewrite decide_True. Qed.

(** When [partition] gives back the vector as it was and [begin - 1] as the
    last position of the low part, the second recursive call is the call
    itself: no budget is enough. *)
Lemma quickSort_stuck fuel bids begin end_ :
  begin < end_ → partition bids begin end_ = Ret (begin - 1, bids) →
  quickSort fuel bids begin end_ = OutOfFuel.
Proof.
  intros Hlt Hpart. induction fuel as [|fuel IH]; simpl; rewrite decide_False by lia; [done|].
  rewrite Hpart. simpl. rewrite quickSort_base by lia. simpl.
  by replace (begin - 1 + 1) with begin by lia.
Qed.

(** ** partition is total on a range of the vector *)

Lemma holds_get bids i b : holds bids i b → vec_get bids i = Ret b.
Proof.
  intros [Hi Hb]. unfold vec_get. rewrite decide_True by done. by apply vec_at_Some.
Qed.

Lemma holds_range bids i b : holds bids i b → 0 ≤ i < Z.of_nat (length bids).
Proof. intros [Hi Hb%lookup_lt_Some]. lia. Qed.

Lemma holds_exists bids i : 0 ≤ i < Z.of_nat (length bids) → ∃ b, holds bids i b.
Proof.
  intros Hi. destruct (lookup_lt_is_Some_2 bids (Z.to_nat i)) as [b Hb]; [lia|].
  exists b. split; [lia|done].
Qed.

Lemma holds_inj bids i b b' : holds bids i b → holds bids i b' → b = b'.
Proof. intros [_ H1] [_ H2]. congruence. Qed.

Lemma vec_swap_holds bids i j x y :
  holds bids i x → holds bids j y →
  vec_swap bids i j = Ret (<[Z.to_nat j := x]> (<[Z.to_nat i := y]> bids)).
Proof.
  intros [Hi Hx] [Hj Hy].
  rewrite <-(Z2Nat.id i) at 1 by done. rewrite <-(Z2Nat.id j) at 1 by done.
  by apply vec_swap_Some.
Qed.

Lemma holds_swapped bids i j x y q b :
  holds bids i x → holds bids j y →
  holds (<[Z.to_nat j := x]> (<[Z.to_nat i := y]> bids)) q b ↔
    (q = j ∧ b = x) ∨ (q ≠ j ∧ q = i ∧ b = y) ∨ (q ≠ j ∧ q ≠ i ∧ holds bids q b).
Proof.
  intros [Hi Hx] [Hj Hy]. unfold holds.
  rewrite (lookup_swapped _ _ _ _ _ _ Hx Hy).
  split.
  - intros [Hq Hl]. destruct (decide (q = j)) as [->|Hqj].
    { rewrite decide_True in Hl by done. left. by simplify_eq. }
    rewrite decide_False in Hl by lia. destruct (decide (q = i)) as [->|Hqi].
    { rewrite decide_True in Hl by done. right; left. by simplify_eq. }
    rewrite decide_False in Hl by lia. by right; right.
  - intros [[-> ->]|[(Hqj & -> & ->)|(Hqj & Hqi & Hq & Hl)]].
    + split; [done|]. by rewrite decide_True.
    + split; [done|]. rewrite decide_False by lia. by rewrite decide_True.
    + split; [done|]. rewrite decide_False by lia. by rewrite decide_False by lia.
Qed.

(** The scan to the right stops at or before any bid that is not less than
    the pivot. *)
Lemma scan_left_spec n bids p left k bk :
  0 ≤ left ≤ k → holds bids k bk → (title bk <? p)%string = false →
  k - left ≤ Z.of_nat n →
  ∃ l1 b1, scan_left n bids p left = Ret l1 ∧ left ≤ l1 ≤ k ∧
    holds bids l1 b1 ∧ (title b1 <? p)%string = false ∧
    ∀ i b, left ≤ i < l1 → holds bids i b → (title b <? p)%string = true.
Proof.
  revert left. induction n as [|n IH]; intros left Hleft Hk Hbk Hn.
  - assert (left = k) as -> by lia. exists k, bk. simpl.
    rewrite (holds_get _ _ _ Hk). simpl. rewrite Hbk.
    split_and!; [done|lia|lia|done|done|]. intros; lia.
  - destruct (holds_exists bids left) as [b Hb].
    { apply holds_range in Hk. lia. }
    simpl. rewrite (holds_get _ _ _ Hb). simpl.
    destruct (title b <? p)%string eqn:Hlt.
    + assert (left ≠ k) by (intros ->; rewrite (holds_inj _ _ _ _ Hb Hk) in Hlt; congruence).
      destruct (IH (left + 1)) as (l1 & b1 & -> & Hl1 & Hb1 & Hnl & Hbefore); [lia|done..|lia|].
      exists l1, b1. split_and!; [done|lia|lia|done..|].
      intros i bi Hi Hbi. destruct (decide (i = left)) as [->|].
      * by rewrite (holds_inj _ _ _ _ Hbi Hb).
      * apply (Hbefore i); [lia|done].
    + exists left, b. split_and!; [done|lia|lia|done..|]. intros; lia.
Qed.

(** The scan to the left stops at or after any bid that is not greater than
    the pivot. *)
Lemma scan_right_spec n bids p right k bk :
  k ≤ right → holds bids k bk → (p <? title bk)%string = false →
  right < Z.of_nat (length bids) → right - k ≤ Z.of_nat n →
  ∃ r1 b1, scan_right n bids p right = Ret r1 ∧ k ≤ r1 ≤ right ∧
    holds bids r1 b1 ∧ (p <? title b1)%string = false ∧
    ∀ j b, r1 < j ≤ right → holds bids j b → (p <? title b)%string = true.
Proof.
  revert right. induction n as [|n IH]; intros right Hright Hk Hbk Hlen Hn.
  - assert (right = k) as -> by lia. exists k, bk. simpl.
    rewrite (holds_get _ _ _ Hk). simpl. rewrite Hbk.
    split_and!; [done|lia|lia|done|done|]. intros; lia.
  - destruct (holds_exists bids right) as [b Hb].
    { apply holds_range in Hk. lia. }
    simpl. rewrite (holds_get _ _ _ Hb). simpl.
    destruct (p <? title b)%string eqn:Hlt.
    + assert (right ≠ k) by (intros ->; rewrite (holds_inj _ _ _ _ Hb Hk) in Hlt; congruence).
      destruct (IH (right - 1)) as (r1 & b1 & -> & Hr1 & Hb1 & Hnl & Hafter); [lia|done..|lia|lia|].
      exists r1, b1. split_and!; [done|lia|lia|done..|].
      intros j bj Hj Hbj. destruct (decide (j = right)) as [->|].
      * by rewrite (holds_inj _ _ _ _ Hbj Hb).
      * apply (Hafter j); [lia|done].
    + exists right, b. split_and!; [done|lia|lia|done..|]. intros; lia.
Qed.

Lemma partition_loop_done n bids p left right :
  ¬ left ≤ right → partition_loop n bids p left right = Ret (right, bids).
Proof. intros ?. destruct n; simpl; by rewrite decide_False. Qed.

Lemma partition_loop_spec n bids0 start end_ p bids left right :
  partition_inv bids0 start end_ p bids left right →
  right - left + 1 ≤ Z.of_nat n →
  ∃ mid bids', partition_loop n bids p left right = Ret (mid, bids') ∧
    partition_post bids0 start end_ p mid bids'.
Proof.
  revert bids left right. induction n as [|n IH]; intros bids left right Hinv Hn.
  all: destruct Hinv as (Hs & He & Hsl & Hre & Hsr & Hperm & Hout & Hlo & Hhi & Hsent & Hmoved).
  all: destruct (decide (left ≤ right)) as [Hlr|Hlr]; [try lia|..].
  1,3: exists right, bids; split; [by apply partition_loop_done|];
    split_and!; [lia|destruct Hmoved as [?|(m & ? & ? & _)]; lia|done|done| |done];
    intros i b Hi; apply Hlo; lia.
  simpl. rewrite decide_True by done.
  destruct (Hsent Hlr) as [(kl & bkl & Hkl & Hbkl & Hnl) (kr & bkr & Hkr & Hbkr & Hnr)].
  pose proof (holds_range _ _ _ Hbkl) as Hkl'.
  destruct (scan_left_spec (length bids) bids p left kl bkl)
    as (l1 & b1 & Hscl & Hl1 & Hb1 & Hb1p & Hbefore); [lia|done|done|lia|].
  destruct (scan_right_spec (length bids) bids p right kr bkr)
    as (r1 & b2 & Hscr & Hr1 & Hb2 & Hb2p & Hafter); [lia|done|done|lia|lia|].
  rewrite Hscl, Hscr. simpl.
  assert (Hlow : ∀ i b, start ≤ i < l1 → holds bids i b → (title b <=? p)%string = true).
  { intros i b Hi Hb. destruct (decide (i < left)); [apply (Hlo i); [lia|done]|].
    apply ltb_leb, (Hbefore i); [lia|done]. }
  assert (Hhigh : ∀ j b, r1 < j ≤ end_ → holds bids j b → (p <=? title b)%string = true).
  { intros j b Hj Hb. destruct (decide (right < j)); [apply (Hhi j); [lia|done]|].
    apply ltb_leb, (Hafter j); [lia|done]. }
  apply ltb_false_leb in Hb1p, Hb2p.
  case_decide as Hswap.
  - rewrite (vec_swap_holds _ _ _ _ _ Hb1 Hb2). simpl.
    set (bids' := <[Z.to_nat r1 := b1]> (<[Z.to_nat l1 := b2]> bids)).
    assert (Hsw : ∀ q b, holds bids' q b ↔
      (q = r1 ∧ b = b1) ∨ (q ≠ r1 ∧ q = l1 ∧ b = b2) ∨ (q ≠ r1 ∧ q ≠ l1 ∧ holds bids q b)).
    { intros q b. by apply holds_swapped. }
    apply IH; [|lia].
    split_and!; [done|unfold bids'; rewrite !length_insert; lia|lia|lia|lia|..].
    + etrans; [|done]. destruct Hb1, Hb2. by apply Permutation_insert_swap.
    + intros i Hi. unfold bids'. rewrite !list_lookup_insert_ne by lia. by apply Hout.
    + intros i b Hi. rewrite Hsw. intros [[-> ->]|[(_ & -> & ->)|(? & ? & Hb)]].
      * assert (l1 = r1) as -> by lia. by rewrite (holds_inj _ _ _ _ Hb1 Hb2).
      * done.
      * apply (Hlow i); [lia|done].
    + intros j b Hj. rewrite Hsw. intros [[-> ->]|[(? & -> & ->)|(? & ? & Hb)]].
      * done.
      * lia.
      * apply (Hhigh j); [lia|done].
    + intros Hlr'. split.
      * exists r1, b1. split_and!; [lia|lia|apply Hsw; by left|by apply ltb_false_leb].
      * exists l1, b2. split_and!; [lia|lia| |by apply ltb_false_leb].
        apply Hsw. right; left. split_and!; [lia|done..].
    + left. lia.
  - exists r1, bids. split; [by apply partition_loop_done|].
    split_and!; [lia| |done|done| |done].
    + destruct Hmoved as [?|(m & bm & Hm & Hbm & Hbmp)]; [lia|].
      destruct (scan_left_spec (length bids) bids p left m bm)
        as (l1' & ? & Hscl' & Hl1' & _); [lia|done|by rewrite Hbmp, ltb_irrefl|lia|].
      destruct (scan_right_spec (length bids) bids p right m bm)
        as (r1' & ? & Hscr' & Hr1' & _); [lia|done|by rewrite Hbmp, ltb_irrefl|lia|lia|].
      rewrite Hscl in Hscl'. rewrite Hscr in Hscr'. simplify_eq. lia.
    + intros i b Hi. apply Hlow. lia.
Qed.

(** [partition] on a range of the vector returns a position between
    [start - 1] and [end_ - 1] and rearranges the range around the title of
    the middle bid. *)
Theorem partition_spec bids start end_ :
  0 ≤ start ≤ end_ → end_ < Z.of_nat (length bids) →
  ∃ mid bids' p, partition bids start end_ = Ret (mid, bids') ∧
    partition_post bids start end_ p mid bids'.
Proof.
  intros Hse Hlen. unfold partition.
  pose proof (half_bounds (start + end_)) as Hh.
  set (m := (start + end_) `quot` 2) in *.
  assert (Hm : start ≤ m ≤ end_) by lia. clearbody m.
  destruct (holds_exists bids m) as [pivotBid Hp]; [lia|].
  rewrite (holds_get _ _ _ Hp). simpl.
  destruct (partition_loop_spec (S (length bids)) bids start end_ (title pivotBid)
              bids start end_) as (mid & bids' & Hloop & Hpost); [|lia|by eauto].
  split_and!; [lia|lia|lia|lia|lia|done|done|intros; lia|intros; lia| |].
  - intros _. split; exists m, pivotBid; by rewrite ltb_irrefl.
  - right. by exists m, pivotBid.
Qed.

(** ** quickSort sorts whenever it returns *)

(** A rearrangement that leaves the outside of a range alone rearranges the
    range. *)
Lemma same_outside_segment (a n : nat) (bids' bids : list Bid) :
  bids' ≡ₚ bids →
  (∀ i, (i < a ∨ a + n ≤ i)%nat → bids' !! i = bids !! i) →
  take n (drop a bids') ≡ₚ take n (drop a bids).
Proof.
  intros Hperm Hout.
  assert (Hlen : length bids' = length bids) by by apply Permutation_length.
  assert (Hpre : take a bids' = take a bids).
  { apply list_eq. intros i. rewrite !lookup_take. case_decide; [|done]. apply Hout. lia. }
  assert (Hpost : drop (a + n) bids' = drop (a + n) bids).
  { apply list_eq. intros i. rewrite !lookup_drop. apply Hout. lia. }
  assert (Hsplit : ∀ l : list Bid, (take a l ++ take n (drop a l)) ++ drop (a + n) l = l).
  { intros l. by rewrite take_take_drop, take_drop. }
  apply (Permutation_app_inv_l (take a bids)), (Permutation_app_inv_r (drop (a + n) bids)).
  rewrite (Hsplit bids). rewrite <-Hpre, <-Hpost. by rewrite (Hsplit bids').
Qed.

Lemma range_bound_transfer (P : Bid → Prop) a b (bids' bids : list Bid) :
  0 ≤ a → bids' ≡ₚ bids → same_outside a b bids' bids →
  (∀ i x, a ≤ i ≤ b → holds bids i x → P x) →
  ∀ i x, a ≤ i ≤ b → holds bids' i x → P x.
Proof.
  intros Ha Hperm Hout HP i x Hi [_ Hx].
  pose proof (same_outside_segment (Z.to_nat a) (Z.to_nat (b - a + 1)) bids' bids Hperm) as Hseg.
  assert (x ∈ take (Z.to_nat (b - a + 1)) (drop (Z.to_nat a) bids')) as Hin.
  { apply list_elem_of_lookup. exists (Z.to_nat (i - a)).
    rewrite lookup_take_lt, lookup_drop by lia.
    by replace (Z.to_nat a + Z.to_nat (i - a))%nat with (Z.to_nat i) by lia. }
  rewrite Hseg in Hin.
  - apply list_elem_of_lookup in Hin as [k Hk].
    apply lookup_take_Some in Hk as [Hk Hkn]. rewrite lookup_drop in Hk.
    apply (HP (Z.of_nat (Z.to_nat a + k))); [lia|]. split; [lia|]. by rewrite Nat2Z.id.
  - intros j Hj. apply Hout. lia.
Qed.

(** The bids from [begin] to [end_] are in order. *)
Lemma quickSort_partial fuel bids begin end_ out :
  0 ≤ begin → end_ < Z.of_nat (length bids) →
  quickSort fuel bids begin end_ = Ret out →
  out ≡ₚ bids ∧ same_outside begin end_ out bids ∧
  ∀ i j bi bj, begin ≤ i → i ≤ j → j ≤ end_ →
    holds out i bi → holds out j bj → title_le bi bj.
Proof.
  revert bids begin end_ out.
  induction fuel as [|fuel IH]; intros bids begin end_ out Hb He; simpl.
  all: case_decide as Hbe; [|try done].
  1,2: intros [= <-]; split_and!; [done|done|];
    intros i j bi bj ??? Hi Hj; assert (i = j) as -> by lia;
    by rewrite (holds_inj _ _ _ _ Hi Hj).
  destruct (partition_spec bids begin end_) as (mid & bids1 & p & -> & Hpost); [lia|lia|].
  destruct Hpost as (Hmid & Hperm1 & Hout1 & Hlo1 & Hhi1). simpl.
  assert (Hlen1 : length bids1 = length bids) by by apply Permutation_length.
  destruct (quickSort fuel bids1 begin mid) as [bids2| |] eqn:Hq1; [|done..]. simpl.
  intros Hq2.
  apply IH in Hq1 as (Hperm2 & Hout2 & Hsorted2); [|lia..].
  assert (Hlen2 : length bids2 = length bids1) by by apply Permutation_length.
  apply IH in Hq2 as (Hperm3 & Hout3 & Hsorted3); [|lia..].
  assert (Hlo2 : ∀ i b, begin ≤ i ≤ mid → holds bids2 i b → (title b <=? p)%string = true).
  { by apply (range_bound_transfer _ begin mid bids2 bids1). }
  assert (Hhi2 : ∀ j b, mid + 1 ≤ j ≤ end_ → holds bids2 j b → (p <=? title b)%string = true).
  { intros j b Hj [Hj0 Hb2]. apply (Hhi1 j); [lia|]. split; [done|].
    rewrite <-Hb2. symmetry. apply Hout2. lia. }
  assert (Hhi3 : ∀ j b, mid + 1 ≤ j ≤ end_ → holds out j b → (p <=? title b)%string = true).
  { apply (range_bound_transfer _ (mid + 1) end_ out bids2); [lia|done..]. }
  assert (Hsame : ∀ i b, i ≤ mid → holds out i b → holds bids2 i b).
  { intros i b Hi [Hi0 Hb3]. split; [done|]. rewrite <-Hb3. symmetry. apply Hout3. lia. }
  split_and!.
  - by rewrite Hperm3, Hperm2.
  - intros i Hi. rewrite Hout3, Hout2 by lia. apply Hout1. lia.
  - intros i j bi bj Hbi Hij Hje Hi Hj.
    destruct (decide (j ≤ mid)); [|destruct (decide (mid < i))].
    + apply (Hsorted2 i j); [lia..|apply Hsame; [lia|done]|apply Hsame; [lia|done]].
    + apply (Hsorted3 i j); [lia..|done|done].
    + unfold title_le. eapply leb_trans.
      * apply (Hlo2 i); [lia|]. apply Hsame; [lia|done].
      * apply (Hhi3 j); [lia|done].
Qed.

(** Whenever [quickSort] returns from the call on the whole vector, it
    returns the vector sorted. *)
Theorem quickSort_sorts_if_it_returns fuel bids out :
  quickSort fuel bids 0 (last_index bids) = Ret out →
  out ≡ₚ bids ∧ Sorted title_le out.
Proof.
  intros Hq. apply quickSort_partial in Hq as (Hperm & _ & Hsorted); [|done|unfold last_index; lia].
  split; [done|]. apply StronglySorted_Sorted, StronglySorted_lookup_2.
  intros i j bi bj Hij Hi Hj.
  assert (length out = length bids) as Hlen by by apply Permutation_length.
  apply lookup_lt_Some in Hj as Hj'.
  apply (Hsorted (Z.of_nat i) (Z.of_nat j)); [lia|lia|unfold last_index; lia|..];
    split; [lia|by rewrite Nat2Z.id|lia|by rewrite Nat2Z.id].
Qed.

(** ** quickSort on a vector that is already sorted *)

Lemma StronglySorted_title_lt_lookup (l : list Bid) p q bp bq :
  StronglySorted title_lt l → (p < q)%nat →
  l !! p = Some bp → l !! q = Some bq → title_lt bp bq.
Proof.
  intros Hl. revert p q. induction Hl as [|x l _ IH Hx]; intros p q Hpq Hp Hq; [done|].
  destruct p as [|p], q as [|q]; simplify_eq/=; [lia| |lia|].
  - rewrite Forall_lookup in Hx. eauto.
  - apply (IH p q); [lia|done..].
Qed.

(** On a range of strictly increasing titles both scans stop at the pivot,
    which is swapped with itself: the vector is left as it was and the
    position returned is the one before the pivot. *)
Lemma partition_sorted bids begin end_ :
  StronglySorted title_lt bids → 0 ≤ begin ≤ end_ → end_ < Z.of_nat (length bids) →
  partition bids begin end_ = Ret ((begin + end_) `quot` 2 - 1, bids).
Proof.
  intros Hsorted Hbe Hlen. unfold partition.
  pose proof (half_bounds (begin + end_)) as Hh.
  set (m := (begin + end_) `quot` 2) in *.
  assert (Hm : begin ≤ m ≤ end_) by lia. clearbody m.
  destruct (holds_exists bids m) as [pb Hpb]; [lia|].
  rewrite (holds_get _ _ _ Hpb). simpl. rewrite decide_True by lia.
  destruct (scan_left_spec (length bids) bids (title pb) begin m pb)
    as (l1 & b1 & -> & Hl1 & Hb1 & Hb1p & _); [lia|done|apply ltb_irrefl|lia|].
  destruct (scan_right_spec (length bids) bids (title pb) end_ m pb)
    as (r1 & b2 & -> & Hr1 & Hb2 & Hb2p & _); [lia|done|apply ltb_irrefl|lia|lia|].
  assert (l1 = m) as ->.
  { destruct (decide (l1 = m)) as [|Hne]; [done|].
    destruct Hb1 as [? Hb1], Hpb as [? Hpb].
    pose proof (StronglySorted_title_lt_lookup bids (Z.to_nat l1) (Z.to_nat m) b1 pb
                  Hsorted ltac:(lia) Hb1 Hpb) as Hlt.
    unfold title_lt in Hlt. congruence. }
  assert (r1 = m) as ->.
  { destruct (decide (r1 = m)) as [|Hne]; [done|].
    destruct Hb2 as [? Hb2], Hpb as [? Hpb].
    pose proof (StronglySorted_title_lt_lookup bids (Z.to_nat m) (Z.to_nat r1) pb b2
                  Hsorted ltac:(lia) Hpb Hb2) as Hlt.
    unfold title_lt in Hlt. congruence. }
  simpl. rewrite decide_True by lia.
  rewrite (vec_swap_holds _ _ _ _ _ Hpb Hpb). simpl.
  destruct Hpb as [_ Hpb]. rewrite list_insert_insert_eq, list_insert_id by done.
  by rewrite partition_loop_done by lia.
Qed.

(** On strictly increasing titles no call of [quickSort] on two bids or more
    ever returns: the range from the pivot on comes back with the pivot as
    its first bid until it has two bids, and then the call repeats itself. *)
Lemma quickSort_sorted_range fuel bids begin end_ :
  StronglySorted title_lt bids → 0 ≤ begin → begin < end_ → end_ < Z.of_nat (length bids) →
  quickSort fuel bids begin end_ = OutOfFuel.
Proof.
  intros Hsorted. revert begin end_.
  induction fuel as [|fuel IH]; intros begin end_ Hb Hbe He; simpl;
    rewrite decide_False by lia; [done|].
  rewrite partition_sorted by (done || lia). simpl.
  pose proof (half_bounds (begin + end_)) as Hh.
  set (m := (begin + end_) `quot` 2) in *. clearbody m.
  destruct (decide (begin < m - 1)).
  - by rewrite IH by lia.
  - rewrite quickSort_base by lia. simpl.
    replace (m - 1 + 1) with m by lia. apply IH; lia.
Qed.

(** [quickSort] on the whole of a vector of two bids or more whose titles are
    strictly increasing never returns. *)
Theorem quickSort_never_returns_on_sorted fuel bids :
  StronglySorted title_lt bids → (2 ≤ length bids)%nat →
  quickSort fuel bids 0 (last_index bids) = OutOfFuel.
Proof.
  intros Hsorted Hlen. apply quickSort_sorted_range; [done|unfold last_index; lia..].
Qed.

(** ** strToDouble *)

Lemma read_digits_nonneg val base s acc n :
  (∀ c v, val c = Some v → 0 ≤ v) → 0 ≤ base → 0 ≤ acc →
  0 ≤ (read_digits val base s acc n).1.1.
Proof.
  intros Hval Hbase. revert acc n. induction s as [|c s IH]; intros acc n Hacc; simpl; [done|].
  destruct (val c) as [v|] eqn:Hc; [|done].
  apply IH. specialize (Hval c v Hc). nia.
Qed.

Lemma read_mantissa_nonneg val base s m d r :
  (∀ c v, val c = Some v → 0 ≤ v) → 0 ≤ base →
  read_mantissa val base s = Some (m, d, r) → 0 ≤ m.
Proof.
  intros Hval Hbase. unfold read_mantissa.
  pose proof (read_digits_nonneg val base s 0 0%nat Hval Hbase (reflexivity 0)) as H1.
  destruct (read_digits val base s 0 0%nat) as [[m1 n1] r1]. simpl in H1.
  destruct r1 as [|c r2].
  { case_match; naive_solver. }
  destruct (Ascii.eqb c ".").
  - pose proof (read_digits_nonneg val base r2 m1 0%nat Hval Hbase H1) as H2.
    destruct (read_digits val base r2 m1 0%nat) as [[m2 n2] r3]. simpl in H2.
    case_match; naive_solver.
  - case_match; naive_solver.
Qed.

Lemma digit_val_nonneg c v : digit_val c = Some v → 0 ≤ v.
Proof. unfold digit_val. case_match; [|done]. intros [= <-]. lia. Qed.

Lemma hex_val_nonneg c v : hex_val c = Some v → 0 ≤ v.
Proof. unfold hex_val. repeat case_match; try done; intros [= <-]; lia. Qed.

Lemma decimal_form_nonneg s q : decimal_form s = Some q → (0 <= q)%Q.
Proof.
  unfold decimal_form. destruct (read_mantissa digit_val 10 s) as [[[m d] r]|] eqn:E; [|done].
  simpl. intros [= <-]. apply Qmult_le_0_compat.
  - apply read_mantissa_nonneg in E; [|apply digit_val_nonneg|done].
    unfold Qle. simpl. lia.
  - by apply Qpower_0_le.
Qed.

Lemma hexadecimal_form_nonneg s q : hexadecimal_form s = Some q → (0 <= q)%Q.
Proof.
  unfold hexadecimal_form. destruct s as [|z [|x s']]; [done..|].
  case_match; [|done].
  destruct (read_mantissa hex_val 16 s') as [[[m d] r]|] eqn:E; [|done].
  simpl. intros [= <-]. apply Qmult_le_0_compat.
  - apply read_mantissa_nonneg in E; [|apply hex_val_nonneg|done].
    unfold Qle. simpl. lia.
  - by apply Qpower_0_le.
Qed.

(** Without a minus sign in front, [atof] gives nothing below zero. *)
Lemma atof_not_negative s :
  (read_sign (skip_spaces s)).1 = false → ¬ negative (atof s).
Proof.
  unfold atof. destruct (read_sign (skip_spaces s)) as [neg s']. cbn [fst]. intros ->.
  assert (Hq : ∀ q, (0 <= q)%Q → ¬ negative (Finite (Qred q))).
  { cbn [negative]. intros q Hq. rewrite Qred_correct. by apply Qle_not_lt. }
  destruct (prefix_ci "inf" s'); [cbn [negative]; congruence|].
  destruct (prefix_ci "nan" s'); [cbn [negative]; tauto|].
  destruct (hexadecimal_form s') as [q|] eqn:Eh.
  { by eapply Hq, hexadecimal_form_nonneg. }
  destruct (decimal_form s') as [q|] eqn:Ed.
  { by eapply Hq, decimal_form_nonneg. }
  cbn [negative]. by apply Qle_not_lt.
Qed.

(** A text that does not begin with a number is no conversion: zero. *)
Lemma atof_no_number s : begins_number s = false → atof s = Finite 0.
Proof.
  unfold atof, begins_number, subject.
  destruct (read_sign (skip_spaces s)) as [neg s']. simpl.
  destruct s' as [|c r]; [done|].
  rewrite !orb_false_iff. intros [[[Hc Hpt] ->] ->].
  assert (Hdc : digit_val c = None).
  { unfold is_digit in Hc. apply bool_decide_eq_false in Hc.
    by destruct (digit_val c); [destruct Hc|]. }
  assert (hexadecimal_form (String c r) = None) as ->.
  { unfold hexadecimal_form. destruct r as [|x r]; [done|].
    destruct (Ascii.eqb_spec c "0") as [->|]; [done|]. done. }
  assert (decimal_form (String c r) = None) as ->; [|done].
  unfold decimal_form, read_mantissa. simpl. rewrite Hdc.
  destruct (Ascii.eqb c "."); [|done]. simpl in Hpt.
  destruct r as [|d r]; [done|]. simpl.
  unfold is_digit in Hpt. apply bool_decide_eq_false in Hpt.
  destruct (digit_val d); [by destruct Hpt|done].
Qed.

(** ** Numerals *)












(** ** loadBids *)

Lemma readBid_table rows (i : nat) row :
  rows !! i = Some row → (9 ≤ length row)%nat →
  ∃ bid, readBid (table rows) (Z.of_nat i) = Val bid ∧ row_bid row bid.
Proof.
  intros Hrow Hlen.
  destruct (lookup_lt_is_Some_2 row 0) as [c0 H0]; [lia|].
  destruct (lookup_lt_is_Some_2 row 1) as [c1 H1]; [lia|].
  destruct (lookup_lt_is_Some_2 row 4) as [c4 H4]; [lia|].
  destruct (lookup_lt_is_Some_2 row 8) as [c8 H8]; [lia|].
  exists (mkBid c1 c0 c8 (strToDouble c4 "$")). split; [|by unfold row_bid; eauto 10].
  unfold readBid, table. simpl. rewrite !decide_True by lia.
  rewrite Nat2Z.id, Hrow. simpl.
  change (Z.to_nat 1) with 1%nat. change (Z.to_nat 8) with 8%nat.
  change (Z.to_nat 4) with 4%nat. change (Z.to_nat 0) with 0%nat.
  by rewrite H0, H1, H4, H8.
Qed.

Lemma readBid_table_short rows (i : nat) row :
  rows !! i = Some row → (length row < 9)%nat →
  ∃ e, readBid (table rows) (Z.of_nat i) = Throw e.
Proof.
  intros Hrow Hlen. unfold readBid, table. simpl. rewrite !decide_True by lia.
  rewrite Nat2Z.id, Hrow. simpl.
  change (Z.to_nat 1) with 1%nat. change (Z.to_nat 8) with 8%nat.
  change (Z.to_nat 4) with 4%nat. change (Z.to_nat 0) with 0%nat.
  destruct (row !! 1%nat); [|by eauto]. simpl.
  destruct (row !! 0%nat); [|by eauto]. simpl.
  rewrite (lookup_ge_None_2 row 8) by lia. by eauto.
Qed.


(** The loop over rows of which one is too short: it stops there. *)
Lemma loadBids_loop_short rows good bad rest n (i : nat) acc :
  drop i rows = good ++ bad :: rest → (length good < n)%nat →
  Forall (λ row, 9 ≤ length row)%nat good → (length bad < 9)%nat →
  ∃ bids e, loadBids_loop n (table rows) (Z.of_nat i) acc = (acc ++ bids, Some e) ∧
    Forall2 row_bid good bids.
Proof.
  revert n i acc. induction good as [|row good IH]; intros n i acc Hdrop Hn Hgood Hbad.
  - destruct n as [|n]; [simpl in Hn; lia|]. simpl.
    assert (rows !! i = Some bad) as Hi.
    { rewrite <-(Nat.add_0_r i), <-lookup_drop, Hdrop. done. }
    destruct (readBid_table_short rows i bad Hi Hbad) as [e ->].
    exists [], e. by rewrite (right_id_L [] (++)).
  - destruct n as [|n]; [simpl in Hn; lia|]. simpl.
    apply Forall_cons in Hgood as [Hrow Hgood].
    assert (rows !! i = Some row) as Hi.
    { rewrite <-(Nat.add_0_r i), <-lookup_drop, Hdrop. done. }
    destruct (readBid_table rows i row Hi Hrow) as (bid & -> & Hbid).
    replace (Z.of_nat i + 1) with (Z.of_nat (S i)) by lia.
    destruct (IH n (S i) (acc ++ [bid])) as (bids & e & -> & Hbids).
    + erewrite drop_S in Hdrop by done. by simplify_eq/=.
    + simpl in Hn. lia.
    + done.
    + done.
    + exists (bid :: bids), e. rewrite <-(assoc_L (++)). split; [done|]. by constructor.
Qed.

(** ** The identifier map *)

Lemma populate_from_absent (m : gmap string Bid) bids id :
  id ∉ bidId <$> bids →
  foldl (λ m bid, <[bidId bid := bid]> m) m bids !! id = m !! id.
Proof.
  revert m. induction bids as [|b bids IH]; intros m Hid; simpl; [done|].
  rewrite fmap_cons, not_elem_of_cons in Hid. destruct Hid as [Hne Hid].
  rewrite IH by done. by rewrite lookup_insert_ne.
Qed.

Lemma populate_from_present (m : gmap string Bid) bids b :
  NoDup (bidId <$> bids) → b ∈ bids →
  foldl (λ m bid, <[bidId bid := bid]> m) m bids !! bidId b = Some b.
Proof.
  revert m. induction bids as [|b0 bids IH]; intros m Hnd Hb; simpl.
  { by apply elem_of_nil in Hb. }
  rewrite fmap_cons, NoDup_cons in Hnd. destruct Hnd as [Hfresh Hnd].
  apply elem_of_cons in Hb as [->|Hb]; [|by apply IH].
  rewrite populate_from_absent by done. by rewrite lookup_insert_eq.
Qed.

Lemma populate_from_is_Some (m : gmap string Bid) bids id :
  is_Some (m !! id) → is_Some (foldl (λ m bid, <[bidId bid := bid]> m) m bids !! id).
Proof.
  revert m. induction bids as [|b bids IH]; intros m Hm; simpl; [done|].
  apply IH. rewrite lookup_insert_is_Some. destruct (decide (bidId b = id)); auto.
Qed.

(** ** exportBenchmarkToCSV *)

Section export_facts.
Variable show_double : double → string.

Lemma append_assoc (a b c : string) : (a +:+ b) +:+ c = a +:+ (b +:+ c).
Proof.
  induction a as [|x a IH]; [reflexivity|].
  change (String x ((a +:+ b) +:+ c) = String x (a +:+ (b +:+ c))). by rewrite IH.
Qed.

Lemma fs_lookup (fs : FileSystem) name : fs !! name = fs_content fs !! name.
Proof. reflexivity. Qed.

(** A file that is not there and can be made gets the header and the line. *)
Lemma export_fresh fs filename algorithm dataSize timeMs :
  fs !! filename = None → fs_appends fs filename = true →
  (exportBenchmarkToCSV show_double fs filename algorithm dataSize timeMs).1 !! filename
    = Some (csv_header +:+ endl +:+ data_line show_double algorithm dataSize timeMs).
Proof.
  intros Hnone Happ. unfold exportBenchmarkToCSV, data_line. rewrite Hnone, Happ.
  cbn [fst]. rewrite fs_lookup. cbn [fs_content]. rewrite lookup_insert_eq.
  simpl. f_equal.
Qed.

(** A file that is there and opens gets the line and nothing else. *)
Lemma export_existing fs filename content algorithm dataSize timeMs :
  fs !! filename = Some content → opens fs filename →
  (exportBenchmarkToCSV show_double fs filename algorithm dataSize timeMs).1 !! filename
    = Some (content +:+ data_line show_double algorithm dataSize timeMs).
Proof.
  intros Hsome [Hread Happ]. unfold exportBenchmarkToCSV, data_line.
  rewrite Hsome, Hread, Happ.
  cbn [fst]. rewrite fs_lookup. cbn [fs_content]. rewrite lookup_insert_eq.
  by rewrite bool_decide_eq_true_2 by by eexists.
Qed.

(** A file that opens gets the line, after the header when it was not
    there. *)
Lemma export_appends fs filename algorithm dataSize timeMs :
  opens fs filename →
  (exportBenchmarkToCSV show_double fs filename algorithm dataSize timeMs).1 !! filename =
    Some ((match fs !! filename with
           | Some content => content
           | None => csv_header +:+ endl
           end) +:+ data_line show_double algorithm dataSize timeMs).
Proof.
  intros Hopens. destruct (fs !! filename) as [content|] eqn:Hfile.
  - by apply export_existing.
  - rewrite append_assoc. apply export_fresh; [done|apply Hopens].
Qed.

(** No other file is touched. *)
Lemma export_other fs filename algorithm dataSize timeMs g :
  g ≠ filename →
  (exportBenchmarkToCSV show_double fs filename algorithm dataSize timeMs).1 !! g = fs !! g.
Proof.
  intros Hg. unfold exportBenchmarkToCSV. cbn [fst].
  destruct (fs_appends fs filename); [|done].
  rewrite !fs_lookup. cbn [fs_content]. by rewrite lookup_insert_ne.
Qed.

(** Where the stream that appends does not open, nothing is written. *)
Lemma export_unopened fs filename algorithm dataSize timeMs :
  fs_appends fs filename = false →
  exportBenchmarkToCSV show_double fs filename algorithm dataSize timeMs =
    (fs, [Cout ("Benchmark result exported to " +:+ filename)]).
Proof. intros Happ. unfold exportBenchmarkToCSV. by rewrite Happ. Qed.

(** What opens before a call opens after it. *)
Lemma export_keeps_opens fs filename algorithm dataSize timeMs g :
  opens fs g →
  opens (exportBenchmarkToCSV show_double fs filename algorithm dataSize timeMs).1 g.
Proof.
  unfold opens, exportBenchmarkToCSV. cbn [fst]. by destruct (fs_appends fs filename).
Qed.
End export_facts.

(** * The claims *)

(** ** Sorting *)

(** C1, on the input where it fails: [quickSort] called on the whole vector
    ["Alpha"; "Mu"; "Zeta"], which is already sorted, is still running
    whatever budget it is given, so it produces no vector at all.  The first
    partition gives [0]; the call on positions 1 to 2 partitions around "Mu",
    gets [0] back and calls itself on positions 1 to 2 again.
    ([selectionSort_sorts] and [mergeSort_sorts] are the two sorts for which
    the claim holds.) *)
Theorem quickSort_sorted_input_never_returns fuel :
  let bids := titled ["Alpha"; "Mu"; "Zeta"] in
  quickSort fuel bids 0 (last_index bids) = OutOfFuel.
Proof.
  cbv zeta. change (last_index (titled ["Alpha"; "Mu"; "Zeta"])) with 2.
  destruct fuel as [|fuel]; [done|].
  change (quickSort (S fuel) ?b 0 2) with
    ('(mid, bids1) ← partition b 0 2;
     bids2 ← quickSort fuel bids1 0 mid; quickSort fuel bids2 (mid + 1) 2).
  assert (partition (titled ["Alpha"; "Mu"; "Zeta"]) 0 2
          = Ret (0, titled ["Alpha"; "Mu"; "Zeta"])) as -> by (vm_compute; reflexivity).
  simpl. rewrite quickSort_base by lia. simpl.
  apply quickSort_stuck; [lia|]. vm_compute. reflexivity.
Qed.

(** C10, on the input where it fails: on the vector ["a"; "b"] with
    [begin = 0] and [end = 1], [partition] returns [-1], which is below
    [begin], and leaves the vector as it was; the second recursive call of
    [quickSort] is then the call itself, and no budget is enough. *)
Theorem partition_below_begin :
  partition (titled ["a"; "b"]) 0 1 = Ret (-1, titled ["a"; "b"]) ∧
  ∀ fuel, quickSort fuel (titled ["a"; "b"]) 0 1 = OutOfFuel.
Proof.
  assert (partition (titled ["a"; "b"]) 0 1 = Ret (-1, titled ["a"; "b"])) as Hpart
    by (vm_compute; reflexivity).
  split; [done|]. intros fuel. by apply quickSort_stuck.
Qed.

(** Bids with pairwise distinct titles are told apart by their titles. *)
Lemma distinct_titles_inj (bids : list Bid) x y :
  NoDup (title <$> bids) → x ∈ bids → y ∈ bids → title x = title y → x = y.
Proof.
  induction bids as [|b bids IH]; intros Hnd Hx Hy Ht.
  { by apply elem_of_nil in Hx. }
  rewrite fmap_cons, NoDup_cons in Hnd. destruct Hnd as [Hb Hnd].
  apply elem_of_cons in Hx as [->|Hx], Hy as [->|Hy]; [done| | |by apply IH].
  - destruct Hb. rewrite Ht. by apply list_elem_of_fmap_2.
  - destruct Hb. rewrite <-Ht. by apply list_elem_of_fmap_2.
Qed.

(** On pairwise distinct titles [selectionSort] and [mergeSort] give the same
    vector. *)
Theorem selectionSort_mergeSort_agree fuel bids :
  NoDup (title <$> bids) → (length bids ≤ fuel)%nat →
  ∃ out, selectionSort bids = Ret out ∧ mergeSort fuel bids 0 (last_index bids) = Ret out.
Proof.
  intros Hnd Hfuel.
  destruct (selectionSort_sorts bids) as (out1 & H1 & Hp1 & Hs1).
  destruct (mergeSort_sorts fuel bids Hfuel) as (out2 & H2 & Hp2 & Hs2).
  exists out1. split; [done|]. rewrite H2. f_equal. symmetry.
  apply (Sorted_unique_strong title_le); [|done..|by rewrite Hp1, Hp2].
  intros x y Hx Hy Hxy Hyx. rewrite Hp1 in Hx. rewrite Hp2 in Hy.
  eapply distinct_titles_inj; eauto using title_le_antisym.
Qed.

(** C9, the example and the input where it fails: the three sorts turn
    ["Zeta"; "Alpha"; "Mu"] into ["Alpha"; "Mu"; "Zeta"], but on the distinct
    titles ["a"; "b"] only [selectionSort] and [mergeSort] give a vector
    (the same one); [quickSort] never returns. *)
Theorem three_sorts_example_and_sorted_pair :
  (selectionSort (titled ["Zeta"; "Alpha"; "Mu"]) = Ret (titled ["Alpha"; "Mu"; "Zeta"]) ∧
   quickSort 3 (titled ["Zeta"; "Alpha"; "Mu"]) 0 2 = Ret (titled ["Alpha"; "Mu"; "Zeta"]) ∧
   mergeSort 3 (titled ["Zeta"; "Alpha"; "Mu"]) 0 2 = Ret (titled ["Alpha"; "Mu"; "Zeta"])) ∧
  (selectionSort (titled ["a"; "b"]) = Ret (titled ["a"; "b"]) ∧
   mergeSort 2 (titled ["a"; "b"]) 0 1 = Ret (titled ["a"; "b"]) ∧
   ∀ fuel, quickSort fuel (titled ["a"; "b"]) 0 (last_index (titled ["a"; "b"])) = OutOfFuel).
Proof.
  split; [split_and!; vm_compute; reflexivity|].
  split_and!; [vm_compute; reflexivity..|].
  intros fuel. apply quickSort_stuck; [done|]. vm_compute. reflexivity.
Qed.

(** C6: [mergeSort] on the whole vector returns, given a budget of the
    vector's size, and is stable: for every title the bids of that title come
    out in the order they went in, so of two bids with equal titles the one
    that occurs earlier in the input occurs earlier in the output. *)
Theorem mergeSort_stable fuel bids :
  (length bids ≤ fuel)%nat →
  ∃ out, mergeSort fuel bids 0 (last_index bids) = Ret out ∧
    (∀ t, filter (has_title t) out = filter (has_title t) bids) ∧
    (∀ x y, title x = title y → occurs_before x y bids → occurs_before x y out).
Proof.
  intros Hfuel. destruct (mergeSort_whole fuel bids Hfuel) as (out & Hout & _ & _ & Hst).
  exists out. split_and!; [done..|]. intros x y Hxy. by apply occurs_before_stable.
Qed.

Lemma mergeSort_stable_witness :
  let bids := [mkBid "1" "T" "" (Finite 0); mkBid "2" "A" "" (Finite 0);
               mkBid "3" "T" "" (Finite 0)] in
  (length bids ≤ 3)%nat ∧
  ∃ out, mergeSort 3 bids 0 (last_index bids) = Ret out ∧
    (∀ t, filter (has_title t) out = filter (has_title t) bids) ∧
    (∀ x y, title x = title y → occurs_before x y bids → occurs_before x y out).
Proof.
  cbv zeta. split; [simpl; lia|]. apply mergeSort_stable. simpl. lia.
Defined.

(** ** Searching *)

(** C2: on a vector sorted by title, [binarySearch] returns a position that
    holds a bid with the title sought whenever some bid has that title, and
    [-1] whenever none has. *)
Theorem binarySearch_correct bids t :
  Sorted title_le bids →
  ((∃ b, b ∈ bids ∧ title b = t) →
     ∃ (i : nat) b, binarySearch bids t = Ret (Z.of_nat i) ∧
       bids !! i = Some b ∧ title b = t) ∧
  ((∀ b, b ∈ bids → title b ≠ t) → binarySearch bids t = Ret (-1)).
Proof.
  intros Hsorted.
  destruct (binarySearch_spec bids t Hsorted) as (r & Hr & [[-> Hnone]|(i & b & -> & Hb & Ht)]).
  - split; [|done]. intros (b & Hb & Ht). by destruct (Hnone b Hb).
  - split; [by eauto|]. intros Hnone. destruct (Hnone b); [|done].
    by eapply list_elem_of_lookup_2.
Qed.

Lemma binarySearch_correct_witness :
  let bids := titled ["Alpha"; "Mu"; "Zeta"] in
  Sorted title_le bids ∧
  ((∃ b, b ∈ bids ∧ title b = "Mu") →
     ∃ (i : nat) b, binarySearch bids "Mu" = Ret (Z.of_nat i) ∧
       bids !! i = Some b ∧ title b = "Mu") ∧
  ((∀ b, b ∈ bids → title b ≠ "Mu") → binarySearch bids "Mu" = Ret (-1)).
Proof.
  cbv zeta.
  assert (Sorted title_le (titled ["Alpha"; "Mu"; "Zeta"])) as Hs
    by (repeat constructor).
  split; [exact Hs|]. exact (binarySearch_correct _ "Mu" Hs).
Defined.

(** The examples of the spec: "Mu" is at position 1 of
    ["Alpha"; "Mu"; "Zeta"], and "Omega" is not found. *)
Example binarySearch_examples :
  binarySearch (titled ["Alpha"; "Mu"; "Zeta"]) "Mu" = Ret 1 ∧
  binarySearch (titled ["Alpha"; "Mu"; "Zeta"]) "Omega" = Ret (-1).
Proof. split; vm_compute; reflexivity. Qed.

(** C8: the map that a load populates from bids with unique identifiers
    holds, under the identifier of every bid loaded, that bid, and holds
    nothing under an identifier that was not loaded. *)
Theorem find_after_populate bids :
  NoDup (bidId <$> bids) →
  (∀ b, b ∈ bids → find (populate bids) (bidId b) = Some b) ∧
  (∀ id, id ∉ bidId <$> bids → find (populate bids) id = None).
Proof.
  intros Hnd. unfold find, populate. split.
  - intros b Hb. by apply populate_from_present.
  - intros id Hid. by rewrite populate_from_absent.
Qed.

Lemma find_after_populate_witness :
  let bids := [mkBid "B1" "Widget" "FundA" (Finite 0); mkBid "B2" "Gadget" "FundB" (Finite 0)] in
  NoDup (bidId <$> bids) ∧
  (∀ b, b ∈ bids → find (populate bids) (bidId b) = Some b) ∧
  (∀ id, id ∉ bidId <$> bids → find (populate bids) id = None).
Proof.
  cbv zeta.
  assert (NoDup (bidId <$> [mkBid "B1" "Widget" "FundA" (Finite 0);
                            mkBid "B2" "Gadget" "FundB" (Finite 0)])) as Hnd.
  { simpl. apply NoDup_cons_2; [|apply NoDup_singleton].
    intros H%list_elem_of_singleton. discriminate H. }
  split; [exact Hnd|]. exact (find_after_populate _ Hnd).
Defined.

(** Case 7 of the menu puts a guard before the lookup: with an empty map it
    asks for a load, otherwise it reports what [find] gives. *)
Lemma searchById_spec bids id :
  searchById (populate bids) id =
    if decide (bids = []) then PleaseLoadFirst
    else if find (populate bids) id is Some bid then BidFound bid else BidNotFound.
Proof.
  unfold searchById. destruct bids as [|b bids]; [done|].
  rewrite decide_False; [done|]. intros Hempty.
  destruct (populate_from_is_Some (<[bidId b := b]> ∅) bids (bidId b)) as [b' Hb'].
  { rewrite lookup_insert_eq. by eexists. }
  unfold populate in Hempty. simpl in Hempty. by rewrite Hempty in Hb'.
Qed.

(** ** Loading *)



(** The example of the spec: the row of "Widget" loads as the bid B1 with
    the amount 125.50. *)
Example loadBids_example :
  loadBids (λ _, Val (table [["Widget"; "B1"; ""; ""; "$125.50"; ""; ""; ""; "FundA"]]))
    "bids.csv"
  = ([Cout "Loading CSV file bids.csv"], Val [mkBid "B1" "Widget" "FundA" (Finite (251 # 2))]).
Proof. vm_compute. reflexivity. Qed.

(** Outside the numerals: every ['$'] of the column is removed, so that a
    column "$1$2" loads as 12, whereas the text with one currency symbol
    stripped, "1$2", reads as 1. *)
Example loadBids_two_symbols :
  ∃ bid,
    (loadBids (λ _, Val (table [["Widget"; "B1"; ""; ""; "$1$2"; ""; ""; ""; "FundA"]]))
       "bids.csv").2 = Val [bid] ∧
    amount bid = Finite 12 ∧
    atof (c_str (strip_one "$" "$1$2")) = Finite 1 ∧
    amount bid ≠ atof (c_str (strip_one "$" "$1$2")).
Proof.
  exists (mkBid "B1" "Widget" "FundA" (Finite 12)).
  split_and!; [vm_compute; reflexivity..|].
  vm_compute. intros H. discriminate H.
Qed.

(** A number followed by other text is read as the number. *)
Example strToDouble_prefix : strToDouble "12abc" "$" = Finite 12.
Proof. vm_compute. reflexivity. Qed.

(** C4, against the claim as stated: the text "-5" parses to -5, which is
    below zero. *)
Lemma strToDouble_minus_five :
  strToDouble "-5" "$" = Finite (-5 # 1) ∧ negative (strToDouble "-5" "$").
Proof. split; vm_compute; reflexivity. Qed.

(** C4, as amended: [strToDouble] is a total function, so parsing never
    fails; a text that, with every ['$'] removed, does not begin with a
    number (after white space and a sign) parses to zero; and a text without
    a minus sign in front of the number never parses to a value below
    zero. *)
Theorem strToDouble_zero_or_signed str :
  (begins_number (c_str (remove_char "$" str)) = false → strToDouble str "$" = Finite 0) ∧
  ((read_sign (skip_spaces (c_str (remove_char "$" str)))).1 = false →
     ¬ negative (strToDouble str "$")).
Proof.
  unfold strToDouble. split; [apply atof_no_number|apply atof_not_negative].
Qed.

Lemma strToDouble_zero_or_signed_witness :
  (begins_number (c_str (remove_char "$" "$abc")) = false ∧
   (read_sign (skip_spaces (c_str (remove_char "$" "$abc")))).1 = false) ∧
  strToDouble "$abc" "$" = Finite 0 ∧ ¬ negative (strToDouble "$abc" "$").
Proof.
  split; [split; reflexivity|].
  split.
  - exact (proj1 (strToDouble_zero_or_signed "$abc") eq_refl).
  - exact (proj2 (strToDouble_zero_or_signed "$abc") eq_refl).
Defined.

(** C5, on the input where it fails: when the file cannot be opened or parsed,
    [csv::Parser(csvPath)] throws before the [try] block is entered; the
    error leaves [loadBids], nothing is written to the error stream and no
    vector is returned. *)
Theorem loadBids_open_failure_escapes what csvPath :
  loadBids (λ _, Throw what) csvPath = ([Cout ("Loading CSV file " +:+ csvPath)], Throw what).
Proof. reflexivity. Qed.

(** What the [try] block does catch: a row that lacks a column, met after rows
    that have theirs, is reported on the error stream, and the bids of the
    rows before it are returned. *)
Theorem loadBids_short_row_reported open csvPath good bad rest :
  open csvPath = Val (table (good ++ bad :: rest)) →
  Forall (λ row, 9 ≤ length row)%nat good → (length bad < 9)%nat →
  ∃ bids e, loadBids open csvPath
              = ([Cout ("Loading CSV file " +:+ csvPath); Cerr e], Val bids) ∧
    Forall2 row_bid good bids.
Proof.
  intros Hopen Hgood Hbad. unfold loadBids. rewrite Hopen. simpl. rewrite Nat2Z.id.
  destruct (loadBids_loop_short (good ++ bad :: rest) good bad rest
              (length (good ++ bad :: rest)) 0 []) as (bids & e & Hloop & Hbids);
    [done|rewrite length_app; simpl; lia|done..|].
  change (Z.of_nat 0) with 0 in Hloop. rewrite Hloop. simpl. eauto.
Qed.

(** ** Benchmark export *)

(** C7: two consecutive calls on a file that does not exist, under a name
    that opens, leave a file that holds the header line once, followed by
    the two lines of results, each the algorithm, the data size and the time
    separated by commas; the header is written by the call that finds no
    file ([export_fresh]) and not by a call that finds one
    ([export_existing]). *)
Theorem exportBenchmarkToCSV_twice show_double fs filename a1 n1 t1 a2 n2 t2 :
  fs !! filename = None → opens fs filename →
  let fs1 := (exportBenchmarkToCSV show_double fs filename a1 n1 t1).1 in
  let fs2 := (exportBenchmarkToCSV show_double fs1 filename a2 n2 t2).1 in
  fs2 !! filename =
    Some (csv_header +:+ endl +:+ data_line show_double a1 n1 t1
            +:+ data_line show_double a2 n2 t2).
Proof.
  intros Hfresh Hopens fs1 fs2. unfold fs2.
  erewrite export_existing;
    [|unfold fs1; apply export_fresh; [done|apply Hopens]|by apply export_keeps_opens].
  reflexivity.
Qed.

Lemma exportBenchmarkToCSV_twice_witness :
  let show := λ _ : double, "12" in
  let fs : FileSystem := ∅ in
  (fs !! "benchmark_results.csv" = None ∧ opens fs "benchmark_results.csv") ∧
  (exportBenchmarkToCSV show
     (exportBenchmarkToCSV show fs "benchmark_results.csv" "SelectionSort" 3 (Finite 12)).1
     "benchmark_results.csv" "QuickSort" 3 (Finite 12)).1 !! "benchmark_results.csv" =
    Some (csv_header +:+ endl +:+ data_line show "SelectionSort" 3 (Finite 12)
            +:+ data_line show "QuickSort" 3 (Finite 12)).
Proof.
  cbv zeta.
  assert ((∅ : FileSystem) !! "benchmark_results.csv" = None) as Hfresh by reflexivity.
  assert (opens ∅ "benchmark_results.csv") as Hopens by (split; reflexivity).
  split; [split; [exact Hfresh|exact Hopens]|].
  exact (exportBenchmarkToCSV_twice (λ _, "12") ∅ "benchmark_results.csv"
           "SelectionSort" 3 (Finite 12) "QuickSort" 3 (Finite 12) Hfresh Hopens).
Defined.

Lemma exportBenchmarkToCSV_more show_double fs filename content calls :
  fs !! filename = Some content → opens fs filename →
  foldl (λ fs '(a, n, t), (exportBenchmarkToCSV show_double fs filename a n t).1)
        fs calls !! filename =
    Some (foldl (λ file '(a, n, t), file +:+ data_line show_double a n t) content calls).
Proof.
  revert fs content.
  induction calls as [|[[a n] t] calls IH]; intros fs content Hfs Hopens; [done|].
  cbn [foldl]. apply IH; [by apply export_existing|by apply export_keeps_opens].
Qed.

(** Any number of calls on a file that does not exist, under a name that
    opens: the header once, then one line per call. *)
Lemma exportBenchmarkToCSV_many show_double fs filename a n t calls :
  fs !! filename = None → opens fs filename →
  foldl (λ fs '(a, n, t), (exportBenchmarkToCSV show_double fs filename a n t).1)
        fs ((a, n, t) :: calls) !! filename =
    Some (foldl (λ file '(a, n, t), file +:+ data_line show_double a n t)
                (csv_header +:+ endl) ((a, n, t) :: calls)).
Proof.
  intros Hfresh Hopens. cbn [foldl]. apply exportBenchmarkToCSV_more.
  - apply export_fresh; [done|apply Hopens].
  - by apply export_keeps_opens.
Qed.

(** * Further properties of the code *)

(** ** The sorts *)

(** X1: [selectionSort] returns on every vector, and what it returns is a
    rearrangement of the vector in which no bid has a greater title than a
    bid after it. *)
Theorem selectionSort_total_correct bids :
  ∃ out, selectionSort bids = Ret out ∧ out ≡ₚ bids ∧ length out = length bids ∧
    StronglySorted title_le out.
Proof.
  destruct (selectionSort_sorts bids) as (out & Hout & Hperm & Hsorted).
  exists out. split_and!; [done..|by apply Permutation_length|].
  by apply Sorted_StronglySorted; [apply _|].
Qed.

Lemma lowest_from_keep n bids j lowest :
  StronglySorted title_le bids → (lowest < j)%nat → (j + n = length bids)%nat →
  lowest_from n bids j lowest = Ret lowest.
Proof.
  intros Hsorted. revert j. induction n as [|n IH]; intros j Hlt Hlen; simpl; [done|].
  destruct (lookup_lt_is_Some_2 bids lowest) as [bl Hbl]; [lia|].
  destruct (lookup_lt_is_Some_2 bids j) as [bj Hbj]; [lia|].
  rewrite (vec_at_Some _ _ _ Hbj), (vec_at_Some _ _ _ Hbl). simpl.
  assert (title_le bl bj) as Hle.
  { apply (StronglySorted_lookup_1 bids lowest j); [done|lia|done..]. }
  apply ltb_false_leb in Hle. unfold String.ltb in Hle.
  destruct (title bj ?= title bl)%string eqn:E; [|done|]; apply IH; lia.
Qed.

Lemma selectionSort_from_keep n bids i :
  StronglySorted title_le bids → (i + n = length bids)%nat →
  selectionSort_from n bids i = Ret bids.
Proof.
  intros Hsorted. revert i. induction n as [|n IH]; intros i Hlen; simpl; [done|].
  rewrite lowest_from_keep by (done || lia). simpl.
  rewrite decide_False by (intros H; by apply H). simpl. apply IH. lia.
Qed.

(** X2: [selectionSort] makes no swap on a vector that is already sorted: it
    returns the vector as it is, bids of equal titles included. *)
Theorem selectionSort_keeps_sorted bids :
  Sorted title_le bids → selectionSort bids = Ret bids.
Proof.
  intros Hsorted. apply selectionSort_from_keep; [|done].
  by apply Sorted_StronglySorted; [apply _|].
Qed.

Lemma selectionSort_keeps_sorted_witness :
  let bids := [mkBid "1" "A" "" (Finite 0); mkBid "2" "T" "" (Finite 0);
               mkBid "3" "T" "" (Finite 0)] in
  Sorted title_le bids ∧ selectionSort bids = Ret bids.
Proof.
  cbv zeta.
  assert (Sorted title_le [mkBid "1" "A" "" (Finite 0); mkBid "2" "T" "" (Finite 0);
                           mkBid "3" "T" "" (Finite 0)]) as Hs by (repeat constructor).
  split; [exact Hs|]. exact (selectionSort_keeps_sorted _ Hs).
Defined.

(** X3: [mergeSort] on the whole vector, with a budget of the vector's size
    for the depth of its recursion, returns a rearrangement of the vector
    that is sorted by title. *)
Theorem mergeSort_total_correct fuel bids :
  (length bids ≤ fuel)%nat →
  ∃ out, mergeSort fuel bids 0 (last_index bids) = Ret out ∧ out ≡ₚ bids ∧
    length out = length bids ∧ StronglySorted title_le out.
Proof.
  intros Hfuel. destruct (mergeSort_whole fuel bids Hfuel) as (out & Hout & Hs & Hp & _).
  exists out. split_and!; [done..|by apply Permutation_length|].
  by apply Sorted_StronglySorted; [apply _|].
Qed.

Lemma mergeSort_total_correct_witness :
  let bids := titled ["Zeta"; "Alpha"; "Mu"; "Alpha"] in
  (length bids ≤ 4)%nat ∧
  ∃ out, mergeSort 4 bids 0 (last_index bids) = Ret out ∧ out ≡ₚ bids ∧
    length out = length bids ∧ StronglySorted title_le out.
Proof.
  cbv zeta. split; [simpl; lia|]. apply mergeSort_total_correct. simpl. lia.
Defined.

(** X4: [mergeSort] on a range of the vector sorts the range and leaves what
    is before it and after it where it was; on a range without a bid it
    changes nothing. *)
Theorem mergeSort_range fuel pre seg post :
  (length seg ≤ fuel)%nat →
  ∃ seg', mergeSort fuel (pre ++ seg ++ post)
            (Z.of_nat (length pre)) (Z.of_nat (length pre + length seg) - 1)
          = Ret (pre ++ seg' ++ post) ∧
    seg' ≡ₚ seg ∧ Sorted title_le seg' ∧
    ∀ t, filter (has_title t) seg' = filter (has_title t) seg.
Proof.
  intros Hfuel. destruct (decide (seg = [])) as [->|Hne].
  { exists []. split_and!; [|done|constructor|done].
    destruct fuel; simpl; by rewrite decide_False by lia. }
  destruct (mergeSort_spec fuel pre seg post (Z.of_nat (length pre))
              (Z.of_nat (length pre + length seg) - 1))
    as (seg' & ? & ? & ? & ?); [done..|]. by exists seg'.
Qed.

Lemma mergeSort_range_witness :
  let pre := titled ["Q"] in
  let seg := titled ["Zeta"; "Alpha"] in
  let post := titled ["B"] in
  (length seg ≤ 2)%nat ∧
  ∃ seg', mergeSort 2 (pre ++ seg ++ post)
            (Z.of_nat (length pre)) (Z.of_nat (length pre + length seg) - 1)
          = Ret (pre ++ seg' ++ post) ∧
    seg' ≡ₚ seg ∧ Sorted title_le seg' ∧
    ∀ t, filter (has_title t) seg' = filter (has_title t) seg.
Proof.
  cbv zeta. split; [simpl; lia|].
  apply (mergeSort_range 2 (titled ["Q"]) (titled ["Zeta"; "Alpha"]) (titled ["B"])).
  simpl. lia.
Defined.

(** X5: [merge] on two adjacent runs of the vector writes in their place a
    rearrangement of the two runs, which is sorted when both runs are and
    then keeps the bids of every title in order, those of the left run
    first; the rest of the vector is left where it was. *)
Theorem merge_adjacent_runs pre s1 s2 post :
  ∃ m, merge (pre ++ s1 ++ s2 ++ post) (Z.of_nat (length pre))
         (Z.of_nat (length pre + length s1) - 1)
         (Z.of_nat (length pre + length s1 + length s2) - 1)
       = Ret (pre ++ m ++ post) ∧
    m ≡ₚ s1 ++ s2 ∧
    (Sorted title_le s1 → Sorted title_le s2 →
       Sorted title_le m ∧
       ∀ t, filter (has_title t) m = filter (has_title t) s1 ++ filter (has_title t) s2).
Proof.
  exists (list_merge title_le s1 s2). split_and!.
  - by apply merge_spec.
  - apply merge_Permutation.
  - intros Hs1 Hs2. split; [apply Sorted_list_merge; [apply _|done..]|].
    intros t. apply list_merge_filter. by apply Sorted_StronglySorted; [apply _|].
Qed.

(** Two sorted vectors that hold, for every title, the same bids in the same
    order are the same vector. *)
Lemma sorted_stable_unique (l1 l2 : list Bid) :
  StronglySorted title_le l1 → StronglySorted title_le l2 → l1 ≡ₚ l2 →
  (∀ t, filter (has_title t) l1 = filter (has_title t) l2) → l1 = l2.
Proof.
  intros Hl1. revert l2. induction Hl1 as [|x l1 Hl1 IH Hx]; intros l2 Hl2 Hperm Hst.
  { by apply Permutation_nil_l in Hperm. }
  destruct Hl2 as [|y l2 Hl2 Hy]; [by apply Permutation_nil_r in Hperm|].
  assert (title x = title y) as Ht.
  { apply title_le_antisym.
    - assert (y ∈ x :: l1) as [->|Hin]%elem_of_cons by (rewrite Hperm; left); [done|].
      rewrite Forall_forall in Hx. by apply Hx.
    - assert (x ∈ y :: l2) as [->|Hin]%elem_of_cons by (rewrite <-Hperm; left); [done|].
      rewrite Forall_forall in Hy. by apply Hy. }
  assert (x = y) as ->.
  { specialize (Hst (title x)).
    rewrite !filter_cons_True in Hst by (unfold has_title; done). by simplify_eq. }
  f_equal. apply IH; [done|by eapply Permutation_cons_inv|].
  intros t. specialize (Hst t). rewrite !filter_cons in Hst.
  destruct (decide (has_title t y)); by simplify_eq.
Qed.

(** X6: [mergeSort] returns a vector that is already sorted as it is, so that
    sorting a second time changes nothing. *)
Theorem mergeSort_keeps_sorted fuel bids :
  Sorted title_le bids → (length bids ≤ fuel)%nat →
  mergeSort fuel bids 0 (last_index bids) = Ret bids.
Proof.
  intros Hsorted Hfuel.
  destruct (mergeSort_whole fuel bids Hfuel) as (out & -> & Hs & Hp & Hst).
  f_equal. apply sorted_stable_unique; [..|done|done];
    by apply Sorted_StronglySorted; [apply _|].
Qed.

Lemma mergeSort_keeps_sorted_witness :
  let bids := [mkBid "1" "A" "" (Finite 0); mkBid "2" "T" "" (Finite 0);
               mkBid "3" "T" "" (Finite 0)] in
  (Sorted title_le bids ∧ (length bids ≤ 3)%nat) ∧
  mergeSort 3 bids 0 (last_index bids) = Ret bids.
Proof.
  cbv zeta.
  assert (Sorted title_le [mkBid "1" "A" "" (Finite 0); mkBid "2" "T" "" (Finite 0);
                           mkBid "3" "T" "" (Finite 0)]) as Hs by (repeat constructor).
  assert (length [mkBid "1" "A" "" (Finite 0); mkBid "2" "T" "" (Finite 0);
                  mkBid "3" "T" "" (Finite 0)] ≤ 3)%nat as Hl by (simpl; lia).
  split; [split; [exact Hs|exact Hl]|]. exact (mergeSort_keeps_sorted 3 _ Hs Hl).
Defined.

(** X7: [partition] on a range of the vector that holds a bid returns: the
    position it gives lies between [start - 1] and [end_ - 1], the vector is
    rearranged inside the range only, and for the title [p] of the middle bid
    no bid up to that position has a title above [p] and no bid after it in
    the range has a title below [p]. *)
Theorem partition_total bids start end_ :
  0 ≤ start → start ≤ end_ → end_ < Z.of_nat (length bids) →
  ∃ mid bids' p, partition bids start end_ = Ret (mid, bids') ∧
    start - 1 ≤ mid < end_ ∧ bids' ≡ₚ bids ∧ same_outside start end_ bids' bids ∧
    (∃ pivotBid, holds bids ((start + end_) `quot` 2) pivotBid ∧ p = title pivotBid) ∧
    (∀ i b, start ≤ i ≤ mid → holds bids' i b → (title b <=? p)%string = true) ∧
    (∀ j b, mid < j ≤ end_ → holds bids' j b → (p <=? title b)%string = true).
Proof.
  intros Hs Hse Hlen.
  pose proof (half_bounds (start + end_)) as Hh.
  destruct (holds_exists bids ((start + end_) `quot` 2)) as [pivotBid Hp]; [lia|].
  assert (partition bids start end_
          = partition_loop (S (length bids)) bids (title pivotBid) start end_) as ->.
  { unfold partition. by rewrite (holds_get _ _ _ Hp). }
  destruct (partition_loop_spec (S (length bids)) bids start end_ (title pivotBid)
              bids start end_) as (mid & bids' & Hloop & Hpost).
  - split_and!; [lia|lia|lia|lia|lia|done|done|intros; lia|intros; lia| |].
    + intros _. split; exists ((start + end_) `quot` 2), pivotBid;
        (split_and!; [lia|lia|done|apply ltb_irrefl]).
    + right. exists ((start + end_) `quot` 2), pivotBid. split_and!; [lia|lia|done..].
  - lia.
  - destruct Hpost as (? & ? & ? & ? & ?).
    exists mid, bids', (title pivotBid).
    split_and!; [done|lia|lia|done|done|by exists pivotBid|done|done].
Qed.

Lemma partition_total_witness :
  let bids := titled ["Zeta"; "Alpha"; "Mu"] in
  (0 ≤ 0 ∧ 0 ≤ 2 ∧ 2 < Z.of_nat (length bids)) ∧
  ∃ mid bids' p, partition bids 0 2 = Ret (mid, bids') ∧
    0 - 1 ≤ mid < 2 ∧ bids' ≡ₚ bids ∧ same_outside 0 2 bids' bids ∧
    (∃ pivotBid, holds bids ((0 + 2) `quot` 2) pivotBid ∧ p = title pivotBid) ∧
    (∀ i b, 0 ≤ i ≤ mid → holds bids' i b → (title b <=? p)%string = true) ∧
    (∀ j b, mid < j ≤ 2 → holds bids' j b → (p <=? title b)%string = true).
Proof.
  cbv zeta. split; [simpl; lia|].
  apply (partition_total (titled ["Zeta"; "Alpha"; "Mu"]) 0 2); simpl; lia.
Defined.

(** X8: whenever [quickSort] returns from a call on a range inside the
    vector, the vector is rearranged inside the range only and the bids of
    the range are in order of title. *)
Theorem quickSort_returns_sorted_range fuel bids begin end_ out :
  0 ≤ begin → end_ < Z.of_nat (length bids) →
  quickSort fuel bids begin end_ = Ret out →
  out ≡ₚ bids ∧ same_outside begin end_ out bids ∧
  ∀ i j bi bj, begin ≤ i → i ≤ j → j ≤ end_ →
    holds out i bi → holds out j bj → title_le bi bj.
Proof. apply quickSort_partial. Qed.

Lemma quickSort_returns_sorted_range_witness :
  let bids := titled ["Zeta"; "Alpha"; "Mu"] in
  let out := titled ["Alpha"; "Mu"; "Zeta"] in
  (0 ≤ 0 ∧ 2 < Z.of_nat (length bids) ∧ quickSort 3 bids 0 2 = Ret out) ∧
  out ≡ₚ bids ∧ same_outside 0 2 out bids ∧
  ∀ i j bi bj, 0 ≤ i → i ≤ j → j ≤ 2 →
    holds out i bi → holds out j bj → title_le bi bj.
Proof.
  cbv zeta.
  assert (quickSort 3 (titled ["Zeta"; "Alpha"; "Mu"]) 0 2
          = Ret (titled ["Alpha"; "Mu"; "Zeta"])) as Hq by (vm_compute; reflexivity).
  split; [split_and!; [lia|simpl; lia|exact Hq]|].
  apply (quickSort_returns_sorted_range 3 _ 0 2 _); [lia|simpl; lia|exact Hq].
Defined.

(** X9: [quickSort] called on the whole of a vector of two bids or more whose
    titles are strictly increasing never returns, whatever the budget. *)
Theorem quickSort_diverges_on_increasing fuel bids :
  StronglySorted title_lt bids → (2 ≤ length bids)%nat →
  quickSort fuel bids 0 (last_index bids) = OutOfFuel.
Proof. apply quickSort_never_returns_on_sorted. Qed.

Lemma quickSort_diverges_on_increasing_witness :
  let bids := titled ["Alpha"; "Mu"; "Zeta"; "Zulu"] in
  (StronglySorted title_lt bids ∧ (2 ≤ length bids)%nat) ∧
  quickSort 1000 bids 0 (last_index bids) = OutOfFuel.
Proof.
  cbv zeta.
  assert (StronglySorted title_lt (titled ["Alpha"; "Mu"; "Zeta"; "Zulu"])) as Hs
    by (repeat constructor).
  assert (2 ≤ length (titled ["Alpha"; "Mu"; "Zeta"; "Zulu"]))%nat as Hl by (simpl; lia).
  split; [split; [exact Hs|exact Hl]|].
  exact (quickSort_diverges_on_increasing 1000 _ Hs Hl).
Defined.

Lemma sorted_distinct_increasing (l : list Bid) :
  StronglySorted title_le l → NoDup (title <$> l) → StronglySorted title_lt l.
Proof.
  induction 1 as [|x l Hl IH Hx]; intros Hnd; constructor.
  - apply IH. rewrite fmap_cons in Hnd. by apply NoDup_cons in Hnd as [_ ?].
  - rewrite fmap_cons, NoDup_cons in Hnd. destruct Hnd as [Hfresh _].
    rewrite Forall_forall in Hx |- *. intros b Hb. specialize (Hx b Hb).
    unfold title_lt. destruct (title x <? title b)%string eqn:E; [done|].
    apply ltb_false_leb in E. destruct Hfresh.
    rewrite (title_le_antisym x b Hx E). by apply list_elem_of_fmap_2.
Qed.

(** X10: on a vector of two bids or more with pairwise distinct titles,
    [selectionSort] returns and [quickSort] called on what it returned never
    does: choice 4 of the menu after choice 3. *)
Theorem selectionSort_then_quickSort_never_returns bids :
  NoDup (title <$> bids) → (2 ≤ length bids)%nat →
  ∃ out, selectionSort bids = Ret out ∧
    ∀ fuel, quickSort fuel out 0 (last_index out) = OutOfFuel.
Proof.
  intros Hnd Hlen. destruct (selectionSort_sorts bids) as (out & Hout & Hperm & Hsorted).
  exists out. split; [done|]. intros fuel. apply quickSort_never_returns_on_sorted.
  - apply sorted_distinct_increasing; [by apply Sorted_StronglySorted; [apply _|]|].
    by rewrite Hperm.
  - by rewrite (Permutation_length Hperm).
Qed.

Lemma selectionSort_then_quickSort_never_returns_witness :
  let bids := titled ["Zeta"; "Alpha"; "Mu"] in
  (NoDup (title <$> bids) ∧ (2 ≤ length bids)%nat) ∧
  ∃ out, selectionSort bids = Ret out ∧
    ∀ fuel, quickSort fuel out 0 (last_index out) = OutOfFuel.
Proof.
  cbv zeta.
  assert (NoDup (title <$> titled ["Zeta"; "Alpha"; "Mu"])) as Hnd.
  { apply (bool_decide_unpack _). vm_compute. exact I. }
  assert (2 ≤ length (titled ["Zeta"; "Alpha"; "Mu"]))%nat as Hl by (simpl; lia).
  split; [split; [exact Hnd|exact Hl]|].
  exact (selectionSort_then_quickSort_never_returns _ Hnd Hl).
Defined.

(** X11: on pairwise distinct titles the three sorts cannot disagree:
    [selectionSort] and [mergeSort] return the same vector, and so does
    [quickSort] whenever it returns. *)
Theorem sorts_agree_on_distinct_titles fuel bids :
  NoDup (title <$> bids) → (length bids ≤ fuel)%nat →
  ∃ out, selectionSort bids = Ret out ∧
    mergeSort fuel bids 0 (last_index bids) = Ret out ∧
    ∀ fuel' out', quickSort fuel' bids 0 (last_index bids) = Ret out' → out' = out.
Proof.
  intros Hnd Hfuel.
  destruct (selectionSort_mergeSort_agree fuel bids Hnd Hfuel) as (out & Hsel & Hmerge).
  exists out. split_and!; [done..|]. intros fuel' out' Hq.
  apply quickSort_sorts_if_it_returns in Hq as (Hp' & Hs').
  destruct (selectionSort_sorts bids) as (out1 & Hsel1 & Hp1 & Hs1).
  assert (out1 = out) as -> by congruence.
  apply (Sorted_unique_strong title_le); [|done..|by rewrite Hp', Hp1].
  intros x y Hx Hy Hxy Hyx. rewrite Hp' in Hx. rewrite Hp1 in Hy.
  eapply distinct_titles_inj; eauto using title_le_antisym.
Qed.

Lemma sorts_agree_on_distinct_titles_witness :
  let bids := titled ["Zeta"; "Alpha"; "Mu"] in
  (NoDup (title <$> bids) ∧ (length bids ≤ 3)%nat) ∧
  ∃ out, selectionSort bids = Ret out ∧
    mergeSort 3 bids 0 (last_index bids) = Ret out ∧
    ∀ fuel' out', quickSort fuel' bids 0 (last_index bids) = Ret out' → out' = out.
Proof.
  cbv zeta.
  assert (NoDup (title <$> titled ["Zeta"; "Alpha"; "Mu"])) as Hnd.
  { apply (bool_decide_unpack _). vm_compute. exact I. }
  assert (length (titled ["Zeta"; "Alpha"; "Mu"]) ≤ 3)%nat as Hl by (simpl; lia).
  split; [split; [exact Hnd|exact Hl]|].
  exact (sorts_agree_on_distinct_titles 3 _ Hnd Hl).
Defined.

(** ** binarySearch without its precondition *)

Lemma binarySearch_loop_sound n bids t left right :
  0 ≤ left → right < Z.of_nat (length bids) → right - left + 1 ≤ Z.of_nat n →
  ∃ r, binarySearch_loop n bids t left right = Ret r ∧
    (r = -1 ∨ ∃ (i : nat) b, r = Z.of_nat i ∧ bids !! i = Some b ∧ title b = t).
Proof.
  revert left right. induction n as [|n IH]; intros left right Hleft Hright Hn.
  all: destruct (decide (left ≤ right)) as [Hlr|Hlr]; [try lia|..].
  1,3: exists (-1); split; [by apply binarySearch_loop_done|by left].
  simpl. rewrite decide_True by done.
  pose proof (half_bounds (right - left)) as Hq.
  set (mid := left + (right - left) `quot` 2).
  assert (Hmid : left ≤ mid ≤ right) by (unfold mid; lia). clearbody mid.
  destruct (holds_exists bids mid) as [b Hb]; [lia|].
  rewrite (holds_get _ _ _ Hb). simpl.
  destruct (title b =? t)%string eqn:Heq.
  { apply String.eqb_eq in Heq. exists mid. split; [done|]. right.
    exists (Z.to_nat mid), b. destruct Hb. split_and!; [lia|done..]. }
  destruct (title b <? t)%string; apply IH; lia.
Qed.

(** X12: [binarySearch] needs no sorted vector to be safe: on every vector
    it returns, and what it returns is [-1] or a position of the vector that
    holds a bid with the title sought, so that [bids[index]] in case 6 of
    the menu is always inside the vector. *)
Theorem binarySearch_total_sound bids t :
  ∃ r, binarySearch bids t = Ret r ∧
    (r = -1 ∨ ∃ b, vec_get bids r = Ret b ∧ title b = t).
Proof.
  destruct (binarySearch_loop_sound (length bids) bids t 0 (Z.of_nat (length bids) - 1))
    as (r & Hr & Hcases); [lia..|].
  exists r. split; [done|]. destruct Hcases as [->|(i & b & -> & Hb & Ht)]; [by left|].
  right. exists b. split; [by apply vec_get_Some|done].
Qed.

(** X13: after [selectionSort], [binarySearch] finds a bid of the vector for
    every title that some bid of the vector has, and returns [-1] for every
    other title: choice 6 of the menu after choice 3. *)
Theorem selectionSort_then_binarySearch bids t :
  ∃ out, selectionSort bids = Ret out ∧
    ((∃ b, b ∈ bids ∧ title b = t) →
       ∃ (i : nat) b, binarySearch out t = Ret (Z.of_nat i) ∧ out !! i = Some b ∧
         b ∈ bids ∧ title b = t) ∧
    ((∀ b, b ∈ bids → title b ≠ t) → binarySearch out t = Ret (-1)).
Proof.
  destruct (selectionSort_sorts bids) as (out & Hout & Hperm & Hsorted).
  exists out. split; [done|].
  destruct (binarySearch_spec out t Hsorted)
    as (r & Hr & [[-> Hnone]|(i & b & -> & Hb & Ht)]).
  - split; [|done]. intros (b & Hb & Ht). destruct (Hnone b); [by rewrite Hperm|done].
  - split.
    + intros _. exists i, b. split_and!; [done..| |done].
      rewrite <-Hperm. by eapply list_elem_of_lookup_2.
    + intros Hnone. destruct (Hnone b); [|done].
      rewrite <-Hperm. by eapply list_elem_of_lookup_2.
Qed.

(** ** The identifier map without unique identifiers *)

Lemma populate_from_last (m : gmap string Bid) bids id :
  foldl (λ m bid, <[bidId bid := bid]> m) m bids !! id =
    match last (filter (λ b, bidId b = id) bids) with
    | Some b => Some b
    | None => m !! id
    end.
Proof.
  revert m. induction bids as [|b bids IH]; intros m; simpl; [done|].
  rewrite IH, filter_cons. destruct (decide (bidId b = id)) as [<-|Hne].
  - rewrite last_cons. destruct (last _); [done|]. by rewrite lookup_insert_eq.
  - destruct (last _); [done|]. by rewrite lookup_insert_ne.
Qed.

(** X14: when several bids of the vector have one identifier, the map holds
    the last of them under it: [find] gives the last bid of the vector with
    the identifier sought, and nothing when no bid has it. *)
Theorem find_gives_last_loaded bids id :
  find (populate bids) id = last (filter (λ b, bidId b = id) bids).
Proof.
  unfold find, populate. rewrite populate_from_last, lookup_empty.
  by destruct (last _).
Qed.

(** X15: every bid that [find] gives is a bid of the vector the map was
    populated from, and has the identifier sought. *)
Theorem find_gives_loaded_bid bids id b :
  find (populate bids) id = Some b → b ∈ bids ∧ bidId b = id.
Proof.
  unfold find, populate. rewrite populate_from_last, lookup_empty.
  destruct (last _) as [b'|] eqn:Hlast; [|done]. intros [= ->].
  apply last_Some_elem_of in Hlast. by apply list_elem_of_filter in Hlast as [? ?].
Qed.

Lemma find_gives_loaded_bid_witness :
  let bids := [mkBid "B1" "Widget" "FundA" (Finite 0); mkBid "B1" "Gadget" "FundB" (Finite 0)] in
  let b := mkBid "B1" "Gadget" "FundB" (Finite 0) in
  find (populate bids) "B1" = Some b ∧ b ∈ bids ∧ bidId b = "B1".
Proof.
  cbv zeta.
  assert (find (populate [mkBid "B1" "Widget" "FundA" (Finite 0);
                          mkBid "B1" "Gadget" "FundB" (Finite 0)]) "B1"
          = Some (mkBid "B1" "Gadget" "FundB" (Finite 0))) as Hf by (vm_compute; reflexivity).
  split; [exact Hf|]. exact (find_gives_loaded_bid _ _ _ Hf).
Defined.

(** With unique identifiers, the map of a vector is the map of each of its
    rearrangements. *)
Lemma populate_rearranged bids out :
  NoDup (bidId <$> bids) → out ≡ₚ bids → populate out = populate bids.
Proof.
  intros Hnd Hperm. apply map_eq. intros id.
  assert (NoDup (bidId <$> out)) as Hnd' by by rewrite Hperm.
  destruct (decide (id ∈ bidId <$> bids)) as [Hin|Hnin].
  - apply list_elem_of_fmap in Hin as (b & -> & Hb).
    unfold populate. rewrite !populate_from_present; [done..|by rewrite Hperm].
  - unfold populate. rewrite !populate_from_absent; [done..|by rewrite Hperm].
Qed.

(** X16: with unique identifiers the map does not depend on the order of the
    vector: populated from a rearrangement of the vector, a sorted one for
    instance, it is the same map, which is why [main] can leave it alone
    when it sorts. *)
Theorem populate_permutation bids out :
  NoDup (bidId <$> bids) → out ≡ₚ bids → populate out = populate bids.
Proof. apply populate_rearranged. Qed.

Lemma populate_permutation_witness :
  let bids := [mkBid "B1" "Widget" "FundA" (Finite 0); mkBid "B2" "Gadget" "FundB" (Finite 0)] in
  let out := [mkBid "B2" "Gadget" "FundB" (Finite 0); mkBid "B1" "Widget" "FundA" (Finite 0)] in
  (NoDup (bidId <$> bids) ∧ out ≡ₚ bids) ∧ populate out = populate bids.
Proof.
  cbv zeta.
  assert (NoDup (bidId <$> [mkBid "B1" "Widget" "FundA" (Finite 0);
                            mkBid "B2" "Gadget" "FundB" (Finite 0)])) as Hnd.
  { apply (bool_decide_unpack _). vm_compute. exact I. }
  assert ([mkBid "B2" "Gadget" "FundB" (Finite 0); mkBid "B1" "Widget" "FundA" (Finite 0)]
          ≡ₚ [mkBid "B1" "Widget" "FundA" (Finite 0); mkBid "B2" "Gadget" "FundB" (Finite 0)])
    as Hperm by apply Permutation_swap.
  split; [split; [exact Hnd|exact Hperm]|]. exact (populate_permutation _ _ Hnd Hperm).
Defined.

(** ** loadBids over any parser *)

(** The loop stops at the first row that cannot be read, and holds then the
    bids of the rows before it. *)
Lemma loadBids_loop_prefix n file (i : nat) acc :
  ∃ bids err, loadBids_loop n file (Z.of_nat i) acc = (acc ++ bids, err) ∧
    (length bids ≤ n)%nat ∧
    (∀ (j : nat) bid, bids !! j = Some bid → readBid file (Z.of_nat (i + j)) = Val bid) ∧
    match err with
    | None => length bids = n
    | Some e => (length bids < n)%nat ∧ readBid file (Z.of_nat (i + length bids)) = Throw e
    end.
Proof.
  revert i acc. induction n as [|n IH]; intros i acc; simpl.
  { exists [], None. by rewrite (right_id_L [] (++)). }
  destruct (readBid file (Z.of_nat i)) as [bid|e] eqn:Hread.
  - replace (Z.of_nat i + 1) with (Z.of_nat (S i)) by lia.
    destruct (IH (S i) (acc ++ [bid])) as (bids & err & -> & Hlen & Hrows & Herr).
    exists (bid :: bids), err. rewrite <-(assoc_L (++)). split_and!; [done|simpl; lia| |].
    + intros [|j] b Hb; simplify_eq/=; [by rewrite Nat.add_0_r|].
      replace (i + S j)%nat with (S i + j)%nat by lia. by apply Hrows.
    + destruct err; simpl; [|lia].
      replace (i + S (length bids))%nat with (S i + length bids)%nat by lia.
      split; [lia|]. apply Herr.
  - exists [], (Some e). rewrite (right_id_L [] (++)), Nat.add_0_r.
    split_and!; [done|simpl; lia|done|simpl; lia|done].
Qed.

(** X17: whatever the parser, once it is constructed [loadBids] returns a
    vector and throws nothing: the vector holds, in order, the bids of the
    rows before the first row whose reading throws, all the rows when none
    does, and the error stream gets the message of that throw, and nothing
    when there is none. *)
Theorem loadBids_returns_rows_before_failure open csvPath file :
  open csvPath = Val file →
  ∃ bids errs,
    loadBids open csvPath = (Cout ("Loading CSV file " +:+ csvPath) :: errs, Val bids) ∧
    (∀ (j : nat) bid, bids !! j = Some bid → readBid file (Z.of_nat j) = Val bid) ∧
    ((errs = [] ∧ length bids = Z.to_nat (rowCount file)) ∨
     (∃ e, errs = [Cerr e] ∧ (length bids < Z.to_nat (rowCount file))%nat ∧
        readBid file (Z.of_nat (length bids)) = Throw e)).
Proof.
  intros Hopen. unfold loadBids. rewrite Hopen.
  destruct (loadBids_loop_prefix (Z.to_nat (rowCount file)) file 0 [])
    as (bids & err & Hloop & Hlen & Hrows & Herr).
  change (Z.of_nat 0) with 0 in Hloop. rewrite Hloop. simpl.
  exists bids. destruct err as [e|].
  - exists [Cerr e]. split_and!; [done|done|]. right. exists e. by destruct Herr.
  - exists []. split_and!; [done|done|]. by left.
Qed.

Lemma loadBids_returns_rows_before_failure_witness :
  let file := table [["Widget"; "B1"; ""; ""; "$125.50"; ""; ""; ""; "FundA"]; ["short"]] in
  let open := λ _ : string, Val file in
  open "bids.csv" = Val file ∧
  ∃ bids errs,
    loadBids open "bids.csv" = (Cout ("Loading CSV file " +:+ "bids.csv") :: errs, Val bids) ∧
    (∀ (j : nat) bid, bids !! j = Some bid → readBid file (Z.of_nat j) = Val bid) ∧
    ((errs = [] ∧ length bids = Z.to_nat (rowCount file)) ∨
     (∃ e, errs = [Cerr e] ∧ (length bids < Z.to_nat (rowCount file))%nat ∧
        readBid file (Z.of_nat (length bids)) = Throw e)).
Proof.
  cbv zeta. split; [reflexivity|].
  exact (loadBids_returns_rows_before_failure (λ _, Val (table _)) "bids.csv" _ eq_refl).
Defined.

(** ** strToDouble and the character it strips *)

Lemma remove_char_app ch a b :
  remove_char ch (a +:+ b) = remove_char ch a +:+ remove_char ch b.
Proof.
  induction a as [|c a IH]; [done|].
  change (String c a +:+ b) with (String c (a +:+ b)). cbn [remove_char].
  destruct (Ascii.eqb c ch); [done|].
  change (String c (remove_char ch a) +:+ remove_char ch b)
    with (String c (remove_char ch a +:+ remove_char ch b)). by rewrite IH.
Qed.

(** X18: the character to strip counts for nothing wherever it stands and
    however often: a text with one more occurrence of it parses to the same
    amount. *)
Theorem strToDouble_ignores_symbol ch a b :
  strToDouble (a +:+ String ch b) ch = strToDouble (a +:+ b) ch.
Proof.
  unfold strToDouble. rewrite !remove_char_app. cbn [remove_char].
  by rewrite Ascii.eqb_refl.
Qed.

(** ** exportBenchmarkToCSV over several calls *)

Lemma exportBenchmarkToCSV_others show_double fs filename calls g :
  g ≠ filename →
  foldl (λ fs '(a, n, t), (exportBenchmarkToCSV show_double fs filename a n t).1)
        fs calls !! g = fs !! g.
Proof.
  intros Hg. revert fs. induction calls as [|[[a n] t] calls IH]; intros fs; [done|].
  cbn [foldl]. rewrite IH. by apply export_other.
Qed.

(** X19: after any number of calls for one file name that opens, the file
    holds what it held before, or the header line when it did not exist,
    followed by one line per call in the order of the calls; a file that
    existed, were it empty, never gets the header, and no other file is
    touched. *)
Theorem exportBenchmarkToCSV_sequence show_double fs filename calls :
  calls ≠ [] → opens fs filename →
  let fs' := foldl (λ fs '(a, n, t), (exportBenchmarkToCSV show_double fs filename a n t).1)
                   fs calls in
  fs' !! filename =
    Some (foldl (λ file '(a, n, t), file +:+ data_line show_double a n t)
                (match fs !! filename with
                 | Some content => content
                 | None => csv_header +:+ endl
                 end) calls) ∧
  ∀ g, g ≠ filename → fs' !! g = fs !! g.
Proof.
  intros Hcalls Hopens fs'. split; [|intros g Hg; by apply exportBenchmarkToCSV_others].
  unfold fs'. destruct calls as [|[[a n] t] calls]; [done|].
  destruct (fs !! filename) as [content|] eqn:Hfile.
  - by apply exportBenchmarkToCSV_more.
  - by apply exportBenchmarkToCSV_many.
Qed.

Lemma exportBenchmarkToCSV_sequence_witness :
  let show := λ _ : double, "12" in
  let fs := mkFileSystem {[ "benchmark_results.csv" := "" ]} (λ _, true)
                         (λ name, negb (String.eqb name "")) in
  let calls := [("SelectionSort", 3, Finite 12); ("MergeSort", 3, Finite 12)] in
  (calls ≠ [] ∧ opens fs "benchmark_results.csv") ∧
  let fs' := foldl (λ fs '(a, n, t),
                      (exportBenchmarkToCSV show fs "benchmark_results.csv" a n t).1)
                   fs calls in
  fs' !! "benchmark_results.csv" =
    Some (foldl (λ file '(a, n, t), file +:+ data_line show a n t)
                (match fs !! "benchmark_results.csv" with
                 | Some content => content
                 | None => csv_header +:+ endl
                 end) calls) ∧
  ∀ g, g ≠ "benchmark_results.csv" → fs' !! g = fs !! g.
Proof.
  cbv zeta.
  assert (opens (mkFileSystem {[ "benchmark_results.csv" := "" ]} (λ _, true)
                              (λ name, negb (String.eqb name "")))
                "benchmark_results.csv") as Hopens by (split; reflexivity).
  split; [split; [discriminate|exact Hopens]|].
  apply (exportBenchmarkToCSV_sequence (λ _, "12") _ "benchmark_results.csv"
           [("SelectionSort", 3, Finite 12); ("MergeSort", 3, Finite 12)]);
    [discriminate|exact Hopens].
Defined.



(** ** The sorting and searching cases of main *)

Section menu_facts.
Variable show_double : double → string.

Lemma sort_case_spec algorithm sort ms s out :
  sort (s_bids s) = Ret out →
  ∃ s' written, sort_case show_double algorithm sort ms s = Ret (s', written) ∧
    s_bids s' = out ∧ s_bidHashMap s' = s_bidHashMap s ∧
    (∀ g, g ≠ "benchmark_results.csv" → s_files s' !! g = s_files s !! g) ∧
    (opens (s_files s) "benchmark_results.csv" →
     s_files s' !! "benchmark_results.csv" =
       Some ((match s_files s !! "benchmark_results.csv" with
              | Some content => content
              | None => csv_header +:+ endl
              end) +:+ data_line show_double algorithm (Z.of_nat (length out))
                                 (Finite (inject_Z ms)))) ∧
    (fs_appends (s_files s) "benchmark_results.csv" = false → s_files s' = s_files s).
Proof.
  intros Hsort. unfold sort_case. rewrite Hsort. cbn [mbind outcome_bind obind].
  destruct (exportBenchmarkToCSV show_double (s_files s) "benchmark_results.csv" algorithm
              (Z.of_nat (length out)) (Finite (inject_Z ms))) as [files exported] eqn:Hexp.
  eexists _, _. split; [done|]. cbn [s_bids s_bidHashMap s_files].
  apply (f_equal fst) in Hexp as Hfiles. cbn [fst] in Hfiles. rewrite <-Hfiles.
  split_and!; [done|done|..].
  - intros g Hg. by apply export_other.
  - intros Hopens. by apply export_appends.
  - intros Happ. by rewrite export_unopened.
Qed.
End menu_facts.

(** X20: choices 3 and 5 of the menu always complete (choice 5 with a budget
    of the vector's size): the vector of the session becomes a sorted
    rearrangement of itself, the identifier map is not touched, and no other
    file changes; where benchmark_results.csv opens it gets one more line,
    after the header when it did not exist, and where it does not open for
    appending the files are left as they were. *)
Theorem sort_choices_complete show_double fuel ms s :
  (length (s_bids s) ≤ fuel)%nat →
  (∃ s' written, case3 show_double ms s = Ret (s', written) ∧
     sort_choice_done show_double "SelectionSort" ms s s') ∧
  (∃ s' written, case5 show_double fuel ms s = Ret (s', written) ∧
     sort_choice_done show_double "MergeSort" ms s s').
Proof.
  intros Hfuel. split.
  - destruct (selectionSort_sorts (s_bids s)) as (out & Hout & Hperm & Hsorted).
    destruct (sort_case_spec show_double "SelectionSort" selectionSort ms s out Hout)
      as (s' & written & Hrun & Hb & Hm & Hothers & Hfile & Hunopened).
    exists s', written. unfold sort_choice_done. rewrite Hb.
    rewrite (Permutation_length Hperm) in Hfile. split_and!; done.
  - destruct (mergeSort_sorts fuel (s_bids s) Hfuel) as (out & Hout & Hperm & Hsorted).
    destruct (sort_case_spec show_double "MergeSort"
                (λ sortedBids, mergeSort fuel sortedBids 0 (last_index sortedBids))
                ms s out Hout)
      as (s' & written & Hrun & Hb & Hm & Hothers & Hfile & Hunopened).
    exists s', written. unfold sort_choice_done. rewrite Hb.
    rewrite (Permutation_length Hperm) in Hfile. split_and!; done.
Qed.

Lemma sort_choices_complete_witness :
  let show := λ _ : double, "12" in
  let s := mkSession (titled ["Zeta"; "Alpha"; "Mu"]) ∅ ∅ in
  (length (s_bids s) ≤ 3)%nat ∧
  (∃ s' written, case3 show 12 s = Ret (s', written) ∧
     sort_choice_done show "SelectionSort" 12 s s') ∧
  (∃ s' written, case5 show 3 12 s = Ret (s', written) ∧
     sort_choice_done show "MergeSort" 12 s s').
Proof.
  cbv zeta.
  assert (length (s_bids (mkSession (titled ["Zeta"; "Alpha"; "Mu"]) ∅ ∅)) ≤ 3)%nat as Hl
    by (simpl; lia).
  split; [exact Hl|]. exact (sort_choices_complete (λ _, "12") 3 12 _ Hl).
Defined.

(** X21: choice 6 of the menu completes on every session, sorted or not: it
    asks for a load when the vector is empty, and otherwise writes either
    that the bid was not found or a bid of the vector that has the title
    sought; it never reads outside the vector. *)
Theorem title_search_completes show_double us t s :
  ∃ written, case6 show_double us t s = Ret written ∧
    ((s_bids s = [] ∧ written = [Cout "Please load bids first."]) ∨
     (s_bids s ≠ [] ∧
      written = [Cout "Enter bid title to search: Bid not found.";
                 Cout ("Search time: " +:+ pretty us +:+ " microseconds")]) ∨
     (∃ b, b ∈ s_bids s ∧ title b = t ∧
        written = [Cout "Enter bid title to search: Bid found:"; displayBid show_double b;
                   Cout ("Search time: " +:+ pretty us +:+ " microseconds")])).
Proof.
  unfold case6. case_decide as Hempty; [by eauto|].
  destruct (binarySearch_loop_sound (length (s_bids s)) (s_bids s) t 0
              (Z.of_nat (length (s_bids s)) - 1)) as (r & Hr & Hcases); [lia..|].
  unfold binarySearch. rewrite Hr. cbn [mbind outcome_bind obind].
  destruct Hcases as [->|(i & b & -> & Hb & Ht)].
  - rewrite decide_False by (intros H; by apply H). cbn [mbind outcome_bind obind app].
    eexists. split; [done|]. right; left. done.
  - rewrite decide_True by lia. rewrite (vec_get_Some _ _ _ Hb).
    cbn [mbind outcome_bind obind app]. eexists. split; [done|]. right; right.
    exists b. split_and!; [by eapply list_elem_of_lookup_2|done..].
Qed.

(** X22: choice 6 after choice 3, on every session: on an empty vector it
    asks for a load; otherwise, the vector being sorted, a title that some
    bid has is reported found with a bid of that title, and a title that no
    bid has is reported not found. *)
Theorem sort_then_title_search show_double ms us t s :
  ∃ s' written, case3 show_double ms s = Ret (s', written) ∧
    (s_bids s = [] → case6 show_double us t s' = Ret [Cout "Please load bids first."]) ∧
    ((∃ b, b ∈ s_bids s ∧ title b = t) →
       ∃ b, b ∈ s_bids s ∧ title b = t ∧
         case6 show_double us t s' =
           Ret [Cout "Enter bid title to search: Bid found:"; displayBid show_double b;
                Cout ("Search time: " +:+ pretty us +:+ " microseconds")]) ∧
    (s_bids s ≠ [] → (∀ b, b ∈ s_bids s → title b ≠ t) →
       case6 show_double us t s' =
         Ret [Cout "Enter bid title to search: Bid not found.";
              Cout ("Search time: " +:+ pretty us +:+ " microseconds")]).
Proof.
  destruct (selectionSort_sorts (s_bids s)) as (out & Hout & Hperm & Hsorted).
  destruct (sort_case_spec show_double "SelectionSort" selectionSort ms s out Hout)
    as (s' & written & Hrun & Hb & _).
  exists s', written. split; [done|].
  destruct (decide (s_bids s = [])) as [Hempty|Hne].
  { rewrite Hempty in Hperm. apply Permutation_nil_r in Hperm.
    assert (s_bids s' = []) as Hempty' by congruence.
    split_and!; [|by intros (b & Hin & _); rewrite Hempty in Hin; apply elem_of_nil in Hin|done].
    intros _. unfold case6. by rewrite decide_True. }
  split; [done|].
  assert (s_bids s' ≠ []) as Hne'.
  { rewrite Hb. intros ->. by apply Permutation_nil_l in Hperm. }
  unfold case6. rewrite decide_False by done. rewrite Hb.
  destruct (binarySearch_spec out t Hsorted)
    as (r & -> & [[-> Hnone]|(i & b & -> & Hbi & Ht)]); cbn [mbind outcome_bind obind].
  - split.
    + intros (b & Hin & Ht). destruct (Hnone b); [by rewrite Hperm|done].
    + intros _ _. by rewrite decide_False by (intros H; by apply H).
  - assert (b ∈ s_bids s) as Hin by (rewrite <-Hperm; by eapply list_elem_of_lookup_2).
    split.
    + intros _. exists b. split_and!; [done..|]. rewrite decide_True by lia.
      by rewrite (vec_get_Some _ _ _ Hbi).
    + intros _ Hnone. by destruct (Hnone b).
Qed.

(** On the session of "Zeta", "Alpha" and "Mu": after the sort the search
    for "Mu" finds a bid of that title. *)
Lemma sort_then_title_search_witness :
  let show := λ _ : double, "0" in
  let s := mkSession (titled ["Zeta"; "Alpha"; "Mu"]) ∅ ∅ in
  ∃ s' written, case3 show 12 s = Ret (s', written) ∧
    ∃ b, b ∈ s_bids s ∧ title b = "Mu" ∧
      case6 show 7 "Mu" s' =
        Ret [Cout "Enter bid title to search: Bid found:"; displayBid show b;
             Cout ("Search time: " +:+ pretty 7 +:+ " microseconds")].
Proof.
  cbv zeta.
  destruct (sort_then_title_search (λ _, "0") 12 7 "Mu"
              (mkSession (titled ["Zeta"; "Alpha"; "Mu"]) ∅ ∅))
    as (s' & written & Hrun & _ & Hfound & _).
  exists s', written. split; [exact Hrun|]. apply Hfound.
  eexists. split; [apply (list_elem_of_lookup_2 _ 2%nat); reflexivity|reflexivity].
Defined.

(** X23: choice 4 after choice 3: when the vector of the session has two bids
    or more and pairwise distinct titles, choice 3 completes and choice 4
    after it never does, whatever the budget. *)
Theorem sort_then_quickSort_hangs show_double ms ms' s :
  NoDup (title <$> s_bids s) → (2 ≤ length (s_bids s))%nat →
  ∃ s' written, case3 show_double ms s = Ret (s', written) ∧
    ∀ fuel, case4 show_double fuel ms' s' = OutOfFuel.
Proof.
  intros Hnd Hlen. destruct (selectionSort_sorts (s_bids s)) as (out & Hout & Hperm & Hsorted).
  destruct (sort_case_spec show_double "SelectionSort" selectionSort ms s out Hout)
    as (s' & written & Hrun & Hb & _).
  exists s', written. split; [done|]. intros fuel.
  unfold case4, sort_case. rewrite Hb.
  rewrite quickSort_never_returns_on_sorted; [done| |by rewrite (Permutation_length Hperm)].
  apply sorted_distinct_increasing; [by apply Sorted_StronglySorted; [apply _|]|].
  by rewrite Hperm.
Qed.

Lemma sort_then_quickSort_hangs_witness :
  let show := λ _ : double, "0" in
  let s := mkSession (titled ["Zeta"; "Alpha"; "Mu"]) ∅ ∅ in
  (NoDup (title <$> s_bids s) ∧ (2 ≤ length (s_bids s))%nat) ∧
  ∃ s' written, case3 show 12 s = Ret (s', written) ∧
    ∀ fuel, case4 show fuel 12 s' = OutOfFuel.
Proof.
  cbv zeta.
  assert (NoDup (title <$> s_bids (mkSession (titled ["Zeta"; "Alpha"; "Mu"]) ∅ ∅))) as Hnd.
  { apply (bool_decide_unpack _). vm_compute. exact I. }
  assert (2 ≤ length (s_bids (mkSession (titled ["Zeta"; "Alpha"; "Mu"]) ∅ ∅)))%nat as Hl
    by (simpl; lia).
  split; [split; [exact Hnd|exact Hl]|].
  exact (sort_then_quickSort_hangs (λ _, "0") 12 12 _ Hnd Hl).
Defined.

(** X24: choice 7 of the menu on the map that a load populated: it asks for
    a load when no bid was loaded, and otherwise reports the last bid loaded
    with the identifier sought, or that the bid was not found when no bid
    loaded has it. *)
Theorem id_search_reports bids id :
  searchById (populate bids) id =
    if decide (bids = []) then PleaseLoadFirst
    else
      match last (filter (λ b, bidId b = id) bids) with
      | Some bid => BidFound bid
      | None => BidNotFound
      end.
Proof.
  rewrite searchById_spec. case_decide; [done|].
  unfold find, populate. rewrite populate_from_last, lookup_empty. by destruct (last _).
Qed.

(** Once the parser is constructed, choice 1 completes with the vector that
    [loadBids] returned and the map populated from it. *)
Lemma case1_loaded open csvPath file ms s :
  open csvPath = Val file →
  ∃ written bids, loadBids open csvPath = (written, Val bids) ∧
    case1 open csvPath ms s =
      (written ++ [Cout (pretty (length bids) +:+ " bids read");
                   Cout ("time: " +:+ pretty ms +:+ " milliseconds")],
       Val (mkSession bids (populate bids) (s_files s))).
Proof.
  intros Hopen. unfold case1, loadBids. rewrite Hopen.
  destruct (loadBids_loop _ _ _ _) as [bids [e|]]; by eexists _, _.
Qed.

(** X25: choices 1 and 3 of the menu in a row: once the parser is
    constructed the load completes, and when the bids loaded have unique
    identifiers the sort that follows leaves a session whose map is the map
    of its vector, so that every bid of the sorted vector is found under its
    identifier. *)
Theorem load_then_sort_keeps_map show_double open csvPath file ms ms' s :
  open csvPath = Val file →
  ∃ written1 s1, case1 open csvPath ms s = (written1, Val s1) ∧
    s_bidHashMap s1 = populate (s_bids s1) ∧
    (NoDup (bidId <$> s_bids s1) →
       ∃ s2 written2, case3 show_double ms' s1 = Ret (s2, written2) ∧
         s_bidHashMap s2 = populate (s_bids s2) ∧
         ∀ b, b ∈ s_bids s2 → searchById (s_bidHashMap s2) (bidId b) = BidFound b).
Proof.
  intros Hopen.
  destruct (case1_loaded open csvPath file ms s Hopen) as (written & bids & _ & Hrun1).
  eexists _, _. split; [exact Hrun1|]. cbn [s_bids s_bidHashMap]. split; [done|]. intros Hnd.
  destruct (selectionSort_sorts bids) as (out & Hout & Hperm & Hsorted).
  destruct (sort_case_spec show_double "SelectionSort" selectionSort ms'
              (mkSession bids (populate bids) (s_files s)) out Hout)
    as (s2 & written2 & Hrun & Hb & Hm & _).
  exists s2, written2. split; [done|]. rewrite Hm, Hb. cbn [s_bidHashMap].
  assert (populate bids = populate out) as -> by (symmetry; by apply populate_rearranged).
  split; [done|]. intros b Hin. rewrite searchById_spec.
  rewrite decide_False by (intros ->; by apply elem_of_nil in Hin).
  unfold find, populate. rewrite populate_from_present; [done|by rewrite Hperm|done].
Qed.

Lemma load_then_sort_keeps_map_witness :
  let file := table [["Widget"; "B1"; ""; ""; "$125.50"; ""; ""; ""; "FundA"];
                     ["Gadget"; "B2"; ""; ""; "79"; ""; ""; ""; "FundB"];
                     ["Anvil"; "B3"; ""; ""; "$3.5"; ""; ""; ""; "FundA"]] in
  let open := λ _ : string, Val file in
  let s := mkSession [] ∅ ∅ in
  open "bids.csv" = Val file ∧
  ∃ written1 s1, case1 open "bids.csv" 5 s = (written1, Val s1) ∧
    title <$> s_bids s1 = ["Widget"; "Gadget"; "Anvil"] ∧
    ∃ s2 written2, case3 (λ _, "0") 7 s1 = Ret (s2, written2) ∧
      title <$> s_bids s2 = ["Anvil"; "Gadget"; "Widget"] ∧
      s_bidHashMap s2 = populate (s_bids s2) ∧
      ∀ b, b ∈ s_bids s2 → searchById (s_bidHashMap s2) (bidId b) = BidFound b.
Proof.
  cbv zeta. split; [reflexivity|].
  destruct (load_then_sort_keeps_map (λ _, "0")
              (λ _, Val (table [["Widget"; "B1"; ""; ""; "$125.50"; ""; ""; ""; "FundA"];
                                ["Gadget"; "B2"; ""; ""; "79"; ""; ""; ""; "FundB"];
                                ["Anvil"; "B3"; ""; ""; "$3.5"; ""; ""; ""; "FundA"]]))
              "bids.csv" _ 5 7 (mkSession [] ∅ ∅) eq_refl)
    as (written1 & s1 & Hrun1 & _ & Hsort).
  assert (bidId <$> s_bids s1 = ["B1"; "B2"; "B3"]
          ∧ title <$> s_bids s1 = ["Widget"; "Gadget"; "Anvil"]) as [Hids Htitles].
  { vm_compute in Hrun1. injection Hrun1 as _ <-. split; reflexivity. }
  exists written1, s1. split; [exact Hrun1|]. split; [exact Htitles|].
  destruct Hsort as (s2 & written2 & Hrun2 & Hmap & Hfind).
  { rewrite Hids. apply (bool_decide_unpack _). vm_compute. exact I. }
  exists s2, written2. split; [exact Hrun2|]. split; [|split; [exact Hmap|exact Hfind]].
  vm_compute in Hrun1. injection Hrun1 as _ <-.
  vm_compute in Hrun2. injection Hrun2 as <- _. reflexivity.
Defined.

(** ** The benchmarks of choice 8 *)

(** X26: choice 8 of the menu, when the quick sort in it returns: the three
    sorts run on copies, so the vector and the map of the session are what
    they were, and no other file changes; where benchmark_results.csv opens
    it gets three more lines, for SelectionSort, QuickSort and MergeSort in
    that order, each with the size of the vector, after the header when the
    file did not exist, and where it does not open for appending the files
    are left as they were. *)
Theorem benchmarks_complete show_double fuel ms1 ms2 ms3 s out :
  s_bids s ≠ [] → (length (s_bids s) ≤ fuel)%nat →
  quickSort fuel (s_bids s) 0 (last_index (s_bids s)) = Ret out →
  ∃ s' written, case8 show_double fuel ms1 ms2 ms3 s = Ret (s', written) ∧
    s_bids s' = s_bids s ∧ s_bidHashMap s' = s_bidHashMap s ∧
    (∀ g, g ≠ "benchmark_results.csv" → s_files s' !! g = s_files s !! g) ∧
    let n := Z.of_nat (length (s_bids s)) in
    (opens (s_files s) "benchmark_results.csv" →
     s_files s' !! "benchmark_results.csv" =
       Some ((((match s_files s !! "benchmark_results.csv" with
                | Some content => content
                | None => csv_header +:+ endl
                end) +:+ data_line show_double "SelectionSort" n (Finite (inject_Z ms1)))
                +:+ data_line show_double "QuickSort" n (Finite (inject_Z ms2)))
                +:+ data_line show_double "MergeSort" n (Finite (inject_Z ms3)))) ∧
    (fs_appends (s_files s) "benchmark_results.csv" = false → s_files s' = s_files s).
Proof.
  intros Hne Hfuel Hq. unfold case8. rewrite decide_False by done.
  destruct (selectionSort_sorts (s_bids s)) as (out1 & -> & Hperm1 & _).
  destruct (mergeSort_sorts fuel (s_bids s) Hfuel) as (out3 & Hm & Hperm3 & _).
  destruct (quickSort_partial fuel (s_bids s) 0 (last_index (s_bids s)) out)
    as (Hperm2 & _); [lia|unfold last_index; lia|done|].
  cbn [mbind outcome_bind obind].
  rewrite (Permutation_length Hperm1).
  destruct (exportBenchmarkToCSV show_double (s_files s) _ _ _ _)
    as [files1 exported1] eqn:Hexp1.
  rewrite Hq. cbn [mbind outcome_bind obind]. rewrite (Permutation_length Hperm2).
  destruct (exportBenchmarkToCSV show_double files1 _ _ _ _)
    as [files2 exported2] eqn:Hexp2.
  rewrite Hm. cbn [mbind outcome_bind obind]. rewrite (Permutation_length Hperm3).
  destruct (exportBenchmarkToCSV show_double files2 _ _ _ _)
    as [files3 exported3] eqn:Hexp3.
  apply (f_equal fst) in Hexp1, Hexp2, Hexp3. cbn [fst] in Hexp1, Hexp2, Hexp3.
  eexists _, _. split; [done|]. cbn [s_bids s_bidHashMap s_files].
  subst files3 files2 files1. split_and!; [done|done|..].
  - intros g Hg. by rewrite !export_other.
  - intros Hopens.
    rewrite export_appends by by do 2 apply export_keeps_opens.
    rewrite export_appends by by apply export_keeps_opens.
    by rewrite export_appends.
  - intros Happ. rewrite (export_unopened _ (s_files s)) by done. cbn [fst].
    rewrite (export_unopened _ (s_files s)) by done. cbn [fst].
    by rewrite (export_unopened _ (s_files s)).
Qed.

Lemma benchmarks_complete_witness :
  let show := λ _ : double, "0" in
  let s := mkSession (titled ["Zeta"; "Alpha"; "Mu"]) ∅ ∅ in
  let out := titled ["Alpha"; "Mu"; "Zeta"] in
  (s_bids s ≠ [] ∧ (length (s_bids s) ≤ 3)%nat ∧
   quickSort 3 (s_bids s) 0 (last_index (s_bids s)) = Ret out) ∧
  ∃ s' written, case8 show 3 1 2 3 s = Ret (s', written) ∧
    s_bids s' = s_bids s ∧ s_bidHashMap s' = s_bidHashMap s ∧
    (∀ g, g ≠ "benchmark_results.csv" → s_files s' !! g = s_files s !! g) ∧
    let n := Z.of_nat (length (s_bids s)) in
    (opens (s_files s) "benchmark_results.csv" →
     s_files s' !! "benchmark_results.csv" =
       Some ((((match s_files s !! "benchmark_results.csv" with
                | Some content => content
                | None => csv_header +:+ endl
                end) +:+ data_line show "SelectionSort" n (Finite (inject_Z 1)))
                +:+ data_line show "QuickSort" n (Finite (inject_Z 2)))
                +:+ data_line show "MergeSort" n (Finite (inject_Z 3)))) ∧
    (fs_appends (s_files s) "benchmark_results.csv" = false → s_files s' = s_files s).
Proof.
  cbv zeta.
  assert (s_bids (mkSession (titled ["Zeta"; "Alpha"; "Mu"]) ∅ ∅) ≠ []) as Hne by done.
  assert (length (s_bids (mkSession (titled ["Zeta"; "Alpha"; "Mu"]) ∅ ∅)) ≤ 3)%nat as Hl
    by (simpl; lia).
  assert (quickSort 3 (s_bids (mkSession (titled ["Zeta"; "Alpha"; "Mu"]) ∅ ∅)) 0
            (last_index (s_bids (mkSession (titled ["Zeta"; "Alpha"; "Mu"]) ∅ ∅)))
          = Ret (titled ["Alpha"; "Mu"; "Zeta"])) as Hq by (vm_compute; reflexivity).
  split; [split_and!; [exact Hne|exact Hl|exact Hq]|].
  exact (benchmarks_complete (λ _, "0") 3 1 2 3 _ _ Hne Hl Hq).
Defined.

(** X27: choice 8 after choice 3: when the vector of the session has two bids
    or more and pairwise distinct titles, choice 3 completes and the
    benchmarks after it never do, whatever the budget: the quick sort in
    them runs on a sorted vector. *)
Theorem sort_then_benchmarks_hang show_double ms s :
  NoDup (title <$> s_bids s) → (2 ≤ length (s_bids s))%nat →
  ∃ s' written, case3 show_double ms s = Ret (s', written) ∧
    ∀ fuel ms1 ms2 ms3, case8 show_double fuel ms1 ms2 ms3 s' = OutOfFuel.
Proof.
  intros Hnd Hlen. destruct (selectionSort_sorts (s_bids s)) as (out & Hout & Hperm & Hsorted).
  destruct (sort_case_spec show_double "SelectionSort" selectionSort ms s out Hout)
    as (s' & written & Hrun & Hb & _).
  exists s', written. split; [done|]. intros fuel ms1 ms2 ms3.
  unfold case8. rewrite Hb.
  rewrite decide_False by (intros ->; apply Permutation_length in Hperm; simpl in Hperm; lia).
  destruct (selectionSort_sorts out) as (out1 & -> & _).
  cbn [mbind outcome_bind obind].
  destruct (exportBenchmarkToCSV show_double (s_files s') _ _ _ _) as [files1 exported1].
  rewrite quickSort_never_returns_on_sorted; [done| |by rewrite (Permutation_length Hperm)].
  apply sorted_distinct_increasing; [by apply Sorted_StronglySorted; [apply _|]|].
  by rewrite Hperm.
Qed.

Lemma sort_then_benchmarks_hang_witness :
  let show := λ _ : double, "0" in
  let s := mkSession (titled ["Zeta"; "Alpha"; "Mu"]) ∅ ∅ in
  (NoDup (title <$> s_bids s) ∧ (2 ≤ length (s_bids s))%nat) ∧
  ∃ s' written, case3 show 12 s = Ret (s', written) ∧
    ∀ fuel ms1 ms2 ms3, case8 show fuel ms1 ms2 ms3 s' = OutOfFuel.
Proof.
  cbv zeta.
  assert (NoDup (title <$> s_bids (mkSession (titled ["Zeta"; "Alpha"; "Mu"]) ∅ ∅))) as Hnd.
  { apply (bool_decide_unpack _). vm_compute. exact I. }
  assert (2 ≤ length (s_bids (mkSession (titled ["Zeta"; "Alpha"; "Mu"]) ∅ ∅)))%nat as Hl
    by (simpl; lia).
  split; [split; [exact Hnd|exact Hl]|].
  exact (sort_then_benchmarks_hang (λ _, "0") 12 _ Hnd Hl).
Defined.
